(** * Atheer Test Lab: the simulation engine of [assets/app.js]

    A shallow embedding of the deterministic core of the browser demo:
    the scenario hash [hashId], the seeded generator [seededRand]
    (mulberry32), the statistics [percentile] and [mean], scenario
    normalisation [getScenario], the offline token pool
    ([initTokenPool], [riskCheck]) and the trial loop [simulateRun].

    Modelling conventions.
    - A JavaScript number is modelled as an exact rational [Qc]
      (canonical fractions, so Leibniz equality is numeric equality).
      Every integer-valued computation of the source (hash, generator
      state, counters, token budget) is exact in both readings; latency
      samples are modelled without IEEE-754 rounding, and [NaN] and the
      infinities are outside the model.
    - The 32-bit integer operators ([^], [|], [>>>], [Math.imul]) are
      written out on [Z] with their wrap-around.
    - [state.tokenPools] is a [gmap] from scenario id to pool; [state.logs]
      is a list of entries, oldest first, as [Array.prototype.push] builds it.
    - [Date.now()] and [Math.random()] are oracles of the environment:
      the k-th call returns [Date_now h k], resp. [Math_random h k];
      the world counts the calls made so far. *)

From Stdlib Require Import ZArith QArith Qcanon Qround Lia Lqa List.
From Stdlib Require Import Sorting.Sorted Sorting.Permutation.
From Stdlib Require Import Strings.String Strings.Ascii.
From stdpp Require Import base numbers option list sorting gmap strings pretty.

Local Open Scope Z_scope.

(** * The program *)

(** ** Numbers *)

(** An integer literal read as a JavaScript number. *)
Definition num (z : Z) : Qc := Qc_of_Z z.

(** [x < y] on numbers. *)
Definition Qc_ltb (x y : Qc) : bool :=
  match (x ?= y)%Qc with Lt => true | _ => false end.

Definition Math_max (x y : Qc) : Qc := if Qc_ltb x y then y else x.
Definition Math_min (x y : Qc) : Qc := if Qc_ltb y x then y else x.
Definition Math_abs (x : Qc) : Qc := if Qc_ltb x 0%Qc then (- x)%Qc else x.

(** [Math.ceil]: the result is integral, so it is returned as a [Z]. *)
Definition Math_ceil (x : Qc) : Z := Qceiling x.

(** Truncation toward zero, the first step of [ToInt32]/[ToUint32]. *)
Definition truncate (x : Qc) : Z :=
  if Qc_ltb x 0%Qc then Qceiling x else Qfloor x.

Definition two32 : Z := 4294967296.

Definition ToUint32 (z : Z) : Z := z mod two32.

Definition ToInt32 (z : Z) : Z := (z + 2147483648) mod two32 - 2147483648.

(** [Math.imul(a, b)]: the low 32 bits of the product, read as signed. *)
Definition Math_imul (a b : Z) : Z := ToInt32 (ToInt32 a * ToInt32 b).

(** [a ^ b] and [a | b] on numbers holding integers. *)
Definition js_xor (a b : Z) : Z := Z.lxor (ToInt32 a) (ToInt32 b).
Definition js_or (a b : Z) : Z := Z.lor (ToInt32 a) (ToInt32 b).

(** [a >>> k] for a constant shift [0 <= k < 32]. *)
Definition js_ushr (a k : Z) : Z := Z.shiftr (ToUint32 a) k.

(** [function clamp(n, lo, hi){ return Math.max(lo, Math.min(hi, n)); }] *)
Definition clamp (n lo hi : Qc) : Qc := Math_max lo (Math_min hi n).

(** ** Strings *)

(** [input.charCodeAt(i)], for the one-byte characters of [string]. *)
Definition charCode (c : ascii) : Z := Z.of_nat (nat_of_ascii c).

Definition hexDigit (d : Z) : ascii :=
  ascii_of_nat (Z.to_nat (if d <? 10 then 48 + d else 55 + d)).

(** [z.toString(16).toUpperCase()] for a non-negative integer: most
    significant digit first, no leading zero, [0] for zero. The fuel is
    the number of digits still allowed; 8 suffices below [two32]. *)
Fixpoint hexDigits (fuel : nat) (z : Z) (acc : string) : string :=
  match fuel with
  | O => acc
  | S f =>
      let acc' := String (hexDigit (z mod 16)) acc in
      if z / 16 =? 0 then acc' else hexDigits f (z / 16) acc'
  end.

Definition toString16 (z : Z) : string := hexDigits 8 z EmptyString.

(** [s.padStart(k, "0")]. *)
Fixpoint zeros (k : nat) : string :=
  match k with O => EmptyString | S k' => String "0"%char (zeros k') end.

Definition padStart0 (k : nat) (s : string) : string :=
  (zeros (k - String.length s) ++ s)%string.

(** ** The scenario hash (FNV-1a over the UTF-16 code units) *)

Fixpoint hashLoop (input : string) (h : Z) : Z :=
  match input with
  | EmptyString => h
  | String c rest => hashLoop rest (Math_imul (js_xor h (charCode c)) 16777619)
  end.

Definition hashId (input : string) : string :=
  let h := hashLoop input 2166136261 in
  ("SCN-" ++ padStart0 8 (toString16 (js_ushr h 0)))%string.

(** ** The seeded generator (mulberry32)

    The closure variable [t] is the generator's state; one call of the
    returned function is [rand_next]. *)

Definition seededRand (seed : Qc) : Z := ToUint32 (truncate seed).

Definition rand_next (t : Z) : Qc * Z :=
  let t := t + 1831565813 (* 0x6D2B79F5 *) in
  let x := Math_imul (js_xor t (js_ushr t 15)) (js_or 1 t) in
  let x := js_xor x (x + Math_imul (js_xor x (js_ushr x 7)) (js_or 61 x)) in
  (Q2Qc (js_ushr (js_xor x (js_ushr x 14)) 0 # 4294967296), t).

(** ** Statistics *)

(** [[...arr].sort((x,y)=>x-y)]: the ascending arrangement of the
    elements. The engine's algorithm is unspecified; insertion is used
    here, and [sortAsc_unique] shows the result does not depend on it. *)
Fixpoint insertAsc (x : Qc) (l : list Qc) : list Qc :=
  match l with
  | [] => [x]
  | y :: l' => if Qc_ltb x y then x :: l else y :: insertAsc x l'
  end.

Definition sortAsc (l : list Qc) : list Qc := fold_right insertAsc [] l.

Definition percentile (arr : list Qc) (p : Qc) : Qc :=
  if (length arr =? 0)%nat then 0%Qc
  else
    let a := sortAsc arr in
    let len := Z.of_nat (length a) in
    let idx := Math_ceil ((p / num 100) * num len)%Qc - 1 in
    nth (Z.to_nat (Z.max 0 (Z.min (len - 1) idx))) a 0%Qc.

Definition mean (arr : list Qc) : Qc :=
  if (length arr =? 0)%nat then 0%Qc
  else
    let s := fold_left Qcplus arr 0%Qc in
    (s / num (Z.of_nat (length arr)))%Qc.

(** ** The host environment *)

(** What the browser provides: the clock, the unseeded generator and
    [JSON.stringify] on numbers and on strings. *)
Record Host := {
  Date_now : nat -> Z;
  Math_random : nat -> Qc;
  JSON_number : Qc -> string;
  JSON_string : string -> string
}.

(** ** Scenario model *)

Record Scenario := {
  sc_netType : string;
  sc_latency : Qc;
  sc_jitter : Qc;
  sc_loss : Qc;
  sc_bw : Qc;
  sc_mix : string;
  sc_n : Qc;
  sc_seed : Qc;
  sc_id : string
}.

(** What [getScenario] reads from the form: a select's value is a
    string; a numeric box is [None] when it is empty (the falsy string)
    and [Some q] when [Number] reads its text as [q]. *)
Record RawInput := {
  raw_netType : string;
  raw_latency : option Qc;
  raw_jitter : option Qc;
  raw_loss : option Qc;
  raw_bw : option Qc;
  raw_mix : string;
  raw_n : option Qc;
  raw_seed : option Qc
}.

(** [Number(value || d)]. *)
Definition numberOr (value : option Qc) (d : Qc) : Qc :=
  match value with Some q => q | None => d end.

Definition dquote : string := String (ascii_of_nat 34) EmptyString.

Definition jsonKey (k : string) : string := (dquote ++ k ++ dquote ++ ":")%string.

(** [JSON.stringify(scenario)] at the point where [id] is not yet set:
    the eight own properties, in insertion order. *)
Definition JSON_stringify (h : Host) (s : Scenario) : string :=
  ("{" ++ jsonKey "netType" ++ JSON_string h (sc_netType s)
   ++ "," ++ jsonKey "latency" ++ JSON_number h (sc_latency s)
   ++ "," ++ jsonKey "jitter" ++ JSON_number h (sc_jitter s)
   ++ "," ++ jsonKey "loss" ++ JSON_number h (sc_loss s)
   ++ "," ++ jsonKey "bw" ++ JSON_number h (sc_bw s)
   ++ "," ++ jsonKey "mix" ++ JSON_string h (sc_mix s)
   ++ "," ++ jsonKey "n" ++ JSON_number h (sc_n s)
   ++ "," ++ jsonKey "seed" ++ JSON_number h (sc_seed s)
   ++ "}")%string.

Definition with_id (s : Scenario) (i : string) : Scenario :=
  {| sc_netType := sc_netType s; sc_latency := sc_latency s;
     sc_jitter := sc_jitter s; sc_loss := sc_loss s; sc_bw := sc_bw s;
     sc_mix := sc_mix s; sc_n := sc_n s; sc_seed := sc_seed s; sc_id := i |}.

Definition getScenario (h : Host) (raw : RawInput) : Scenario :=
  let scenario :=
    {| sc_netType := raw_netType raw;
       sc_latency := clamp (numberOr (raw_latency raw) (num 0)) (num 0) (num 5000);
       sc_jitter := clamp (numberOr (raw_jitter raw) (num 0)) (num 0) (num 2000);
       sc_loss := clamp (numberOr (raw_loss raw) (num 0)) (num 0) (num 30);
       sc_bw := clamp (numberOr (raw_bw raw) (num 0)) (num 64) (num 1000000);
       sc_mix := raw_mix raw;
       sc_n := clamp (numberOr (raw_n raw) (num 1000)) (num 10) (num 200000);
       sc_seed := clamp (numberOr (raw_seed raw) (num 42)) (num 1) (num 2147483647);
       sc_id := EmptyString |} in
  with_id scenario (hashId (JSON_stringify h scenario)).

(** ** Offline token pool and risk checks *)

Record Token := {
  tok_id : string;
  tok_used : bool;
  tok_expiresAt : Qc
}.

Record Pool := {
  tokens : list Token;
  cumulative : Qc;
  limit : Qc;
  threshold : Qc
}.

Inductive MetaVal :=
  | MStr (s : string)
  | MNum (q : Qc).

(** A log entry without its timestamp [t: nowIso()], which no
    decision of the engine reads. *)
Record LogEntry := {
  comp : string;
  msg : string;
  meta : list (string * MetaVal)
}.

(** The part of [state] the engine touches, with the number of calls
    made so far to each oracle of the host. *)
Record World := {
  logs : list LogEntry;
  tokenPools : gmap string Pool;
  nowCalls : nat;
  randomCalls : nat
}.

(** The state when the page has just loaded: no log, no pool. *)
Definition initialWorld : World :=
  {| logs := []; tokenPools := ∅; nowCalls := 0; randomCalls := 0 |}.

(** [log(comp, msg, meta)]: [state.logs.push(entry)]; the call of
    [renderLogs()] only writes to the page. *)
Definition log (c m : string) (mt : list (string * MetaVal)) (w : World) : World :=
  {| logs := logs w ++ [{| comp := c; msg := m; meta := mt |}];
     tokenPools := tokenPools w;
     nowCalls := nowCalls w;
     randomCalls := randomCalls w |}.

(** [x * 24 * 60 * 60 * 1000]. *)
Definition msPerDay (x : Qc) : Qc := (x * num 24 * num 60 * num 60 * num 1000)%Qc.

(** The token pushed at loop index [i]; [r] is that iteration's
    [Math.random()]. *)
Definition newToken (now : Z) (i : nat) (r : Qc) : Token :=
  {| tok_id := ("T" ++ pretty (S i))%string;
     tok_used := false;
     tok_expiresAt := (num now + msPerDay (num 3 + r))%Qc |}.

(** The pool of 100 tokens, each valid for three to four days from
    [now]; one reading of the clock, one [Math.random()] per token. *)
Definition initTokenPool (h : Host) (scenario : Scenario) (w : World) : World :=
  let now := Date_now h (nowCalls w) in
  let tokens :=
    (fun i => newToken now i (Math_random h (randomCalls w + i)%nat)) <$> seq 0 100 in
  let pool :=
    {| tokens := tokens; cumulative := num 0; limit := num 100; threshold := num 100 |} in
  log "token" "Initialized token pool"
    [("scenario"%string, MStr (sc_id scenario));
     ("tokens"%string, MNum (num (Z.of_nat (length tokens))))]
    {| logs := logs w;
       tokenPools := <[sc_id scenario := pool]> (tokenPools w);
       nowCalls := S (nowCalls w);
       randomCalls := (randomCalls w + 100)%nat |}.

(** [pool.tokens.find(t => !t.used && t.expiresAt > Date.now())]: the
    index of the first match, and the clock counter afterwards. The
    clock is read once for every unused token the scan visits. *)
Fixpoint findToken (h : Host) (ts : list Token) (i k : nat) : option nat * nat :=
  match ts with
  | [] => (None, k)
  | t :: rest =>
      if tok_used t then findToken h rest (S i) k
      else if Qc_ltb (num (Date_now h k)) (tok_expiresAt t) then (Some i, S k)
      else findToken h rest (S i) (S k)
  end.

(** [token.used = true]. *)
Definition markUsed (t : Token) : Token :=
  {| tok_id := tok_id t; tok_used := true; tok_expiresAt := tok_expiresAt t |}.

(** Lines 157-161 of [riskCheck]: create the pool on first use. *)
Definition ensurePool (h : Host) (scenario : Scenario) (w : World) : World :=
  match tokenPools w !! sc_id scenario with
  | Some _ => w
  | None => initTokenPool h scenario w
  end.

(** The world after the clock has been read up to call [k], and after
    [state.tokenPools[key]] has been updated in place to [p]. *)
Definition setClock (k : nat) (w : World) : World :=
  {| logs := logs w; tokenPools := tokenPools w; nowCalls := k;
     randomCalls := randomCalls w |}.

Definition setPool (key : string) (p : Pool) (w : World) : World :=
  {| logs := logs w; tokenPools := <[key := p]> (tokenPools w);
     nowCalls := nowCalls w; randomCalls := randomCalls w |}.

(** The three messages [riskCheck] logs, one per way out. *)
Definition msgExhausted : string := "Token expired or exhausted".
Definition msgLimit : string := "Cumulative limit exceeded".
Definition msgConsumed : string := "Token consumed".

(** [riskCheck(scenario, amount)]: the verdict and the world afterwards.
    The token [find] returns is the object in the pool's array, so
    marking it used updates the array at its index. *)
Definition riskCheck (h : Host) (scenario : Scenario) (amount : Qc) (w : World)
  : bool * World :=
  let w := ensurePool h scenario w in
  match tokenPools w !! sc_id scenario with
  | None => (false, w)
  | Some pool =>
      let '(found, k) := findToken h (tokens pool) 0 (nowCalls w) in
      let w := setClock k w in
      match found with
      | None =>
          (false, log "risk" msgExhausted [("scenario"%string, MStr (sc_id scenario))] w)
      | Some i =>
          if Qc_ltb (limit pool) (cumulative pool + amount)%Qc then
            (false,
             log "risk" msgLimit
               [("scenario"%string, MStr (sc_id scenario));
                ("cumulative"%string, MNum (cumulative pool));
                ("amount"%string, MNum amount)] w)
          else
            let pool' :=
              {| tokens := alter markUsed i (tokens pool);
                 cumulative := (cumulative pool + amount)%Qc;
                 limit := limit pool;
                 threshold := threshold pool |} in
            (true,
             log "risk" msgConsumed
               [("scenario"%string, MStr (sc_id scenario));
                ("token"%string,
                 MStr (match tokens pool !! i with Some t => tok_id t | None => EmptyString end));
                ("newCumulative"%string, MNum (cumulative pool'))]
               (setPool (sc_id scenario) pool' w))
      end
  end.

(** ** The simulation engine *)

Record Metrics := {
  avg_ms : Qc;
  p50_ms : Qc;
  p95_ms : Qc;
  p99_ms : Qc;
  error_rate : Qc;
  retry_rate : Qc
}.

Record SimResult := {
  samples : list Qc;
  metrics : Metrics;
  errors : Z;
  retries : Z
}.

(** The variables of [simulateRun] that the loop updates: the
    generator's state, [samples], [errors], [retries], and the world. *)
Record LoopState := {
  ls_rand : Z;
  ls_samples : list Qc;
  ls_errors : Z;
  ls_retries : Z;
  ls_world : World
}.

(** [const baseProcessing = ...]: the processing time of the mix. *)
Definition baseProcessing (scenario : Scenario) : Qc :=
  if String.eqb (sc_mix scenario) "tap_to_pay" then num 85
  else if String.eqb (sc_mix scenario) "provisioning" then num 160
  else num 120.

(** [const payloadKbits = scenario.mix==="provisioning" ? 48 : 12]. *)
Definition payloadKbits (scenario : Scenario) : Qc :=
  if String.eqb (sc_mix scenario) "provisioning" then num 48 else num 12.

(** [const bwMs = (payloadKbits / scenario.bw) * 1000 * 8]. *)
Definition bwMs (scenario : Scenario) : Qc :=
  (payloadKbits scenario / sc_bw scenario * num 1000 * num 8)%Qc.

(** [const jitter = (rand()*2 - 1) * scenario.jitter], for the draw [r]. *)
Definition jitterOffset (scenario : Scenario) (r : Qc) : Qc :=
  ((r * num 2 - num 1) * sc_jitter scenario)%Qc.

(** [let t = baseProcessing + net + bwMs] with [net = scenario.latency + jitter]. *)
Definition firstAttempt (scenario : Scenario) (r : Qc) : Qc :=
  let net := (sc_latency scenario + jitterOffset scenario r)%Qc in
  (baseProcessing scenario + net + bwMs scenario)%Qc.

(** [const stress = clamp(loss/30 + latency/800 + jitter/400, 0, 1)]. *)
Definition stress (scenario : Scenario) : Qc :=
  clamp (sc_loss scenario / num 30 + sc_latency scenario / num 800
         + sc_jitter scenario / num 400)%Qc (num 0) (num 1).

(** The outcome of the network part of one accepted trial, lines 345-366:
    the latency [t] before the final clamp, [err], [drop], and the
    generator's state after the trial's draws. *)
Record NetOutcome := {
  no_t : Qc;
  no_err : bool;
  no_drop : bool;
  no_rand : Z
}.

(** The draws are made in the order of the source: drop, jitter, then
    second failure and retry jitter (after a drop) or the baseline
    fault, then stress, and the stress delay when it applies. *)
Definition networkTrial (scenario : Scenario) (g : Z) : NetOutcome :=
  let '(r1, g) := rand_next g in
  let drop := Qc_ltb r1 (sc_loss scenario / num 100)%Qc in
  let '(r2, g) := rand_next g in
  let t := firstAttempt scenario r2 in
  let '(t, err, g) :=
    if drop then
      let '(r3, g) := rand_next g in
      let secondFail := Qc_ltb r3 (Q2Qc (12 # 100)) in
      let '(r4, g) := rand_next g in
      ((t + (sc_latency scenario
             + Math_abs ((r4 * num 2 - num 1) * sc_jitter scenario) + num 40))%Qc,
       secondFail, g)
    else
      let '(r3, g) := rand_next g in
      (t, Qc_ltb r3 (Q2Qc (8 # 1000)), g) in
  let '(r5, g) := rand_next g in
  let '(t, g) :=
    if Qc_ltb r5 (stress scenario * Q2Qc (35 # 100))%Qc then
      let '(r6, g) := rand_next g in
      ((t + (num 35 + r6 * num 90))%Qc, g)
    else (t, g) in
  {| no_t := t; no_err := err; no_drop := drop; no_rand := g |}.

(** The body of the [for] loop at index [i]. *)
Definition trial (h : Host) (scenario : Scenario) (i : Z) (st : LoopState) : LoopState :=
  let amount := num 1 in
  let '(ok, w) := riskCheck h scenario amount (ls_world st) in
  if negb ok then
    {| ls_rand := ls_rand st;
       ls_samples := ls_samples st ++ [num 0];
       ls_errors := ls_errors st + 1;
       ls_retries := ls_retries st;
       ls_world := w |}
  else
    let o := networkTrial scenario (ls_rand st) in
    let w :=
      if no_err o then
        log "host" "Transaction failed"
          [("i"%string, MNum (num i)); ("reason"%string, MStr "mock_error")] w
      else if no_drop o then
        log "network" "Retry succeeded after packet loss" [("i"%string, MNum (num i))] w
      else w in
    {| ls_rand := no_rand o;
       ls_samples := ls_samples st ++ [Math_max (num 0) (no_t o)];
       ls_errors := if no_err o then ls_errors st + 1 else ls_errors st;
       ls_retries := if no_drop o then ls_retries st + 1 else ls_retries st;
       ls_world := w |}.

(** [for (let i=0; i<scenario.n; i++) body]: the guard is tested before
    every iteration; [fuel] bounds the number of iterations. *)
Fixpoint forTrials (fuel : nat) (h : Host) (scenario : Scenario) (i : Z) (st : LoopState)
  : LoopState :=
  match fuel with
  | O => st
  | S fuel' =>
      if Qc_ltb (num i) (sc_n scenario)
      then forTrials fuel' h scenario (i + 1) (trial h scenario i st)
      else st
  end.

(** The number of indices [i = 0, 1, ...] with [i < n]. *)
Definition tripCount (n : Qc) : nat := Z.to_nat (Qceiling n).

Definition metricsMeta (m : Metrics) : list (string * MetaVal) :=
  [("avg_ms"%string, MNum (avg_ms m)); ("p50_ms"%string, MNum (p50_ms m));
   ("p95_ms"%string, MNum (p95_ms m)); ("p99_ms"%string, MNum (p99_ms m));
   ("error_rate"%string, MNum (error_rate m)); ("retry_rate"%string, MNum (retry_rate m))].

(** The [metrics] object literal. *)
Definition computeMetrics (scenario : Scenario) (smp : list Qc) (errs rets : Z) : Metrics :=
  {| avg_ms := mean smp;
     p50_ms := percentile smp (num 50);
     p95_ms := percentile smp (num 95);
     p99_ms := percentile smp (num 99);
     error_rate := (num errs / sc_n scenario)%Qc;
     retry_rate := (num rets / sc_n scenario)%Qc |}.

(** [simulateRun(scenario)]: the returned object and the world
    afterwards. The fuel given to the loop is the number of indices
    below [scenario.n] ([forTrials_fuel]: more would change nothing). *)
Definition simulateRun (h : Host) (scenario : Scenario) (w : World) : SimResult * World :=
  let rand := seededRand (sc_seed scenario) in
  let w :=
    log "client" "Run started"
      [("scenario"%string, MStr (sc_id scenario)); ("n"%string, MNum (sc_n scenario));
       ("seed"%string, MNum (sc_seed scenario))] w in
  let w :=
    log "network" "Applying network profile"
      [("netType"%string, MStr (sc_netType scenario));
       ("latency"%string, MNum (sc_latency scenario));
       ("jitter"%string, MNum (sc_jitter scenario));
       ("loss"%string, MNum (sc_loss scenario));
       ("bw"%string, MNum (sc_bw scenario))] w in
  let st :=
    forTrials (tripCount (sc_n scenario)) h scenario 0
      {| ls_rand := rand; ls_samples := []; ls_errors := 0; ls_retries := 0;
         ls_world := w |} in
  let m := computeMetrics scenario (ls_samples st) (ls_errors st) (ls_retries st) in
  let w := log "risk" "Metrics computed" (metricsMeta m) (ls_world st) in
  let w := log "client" "Run finished" [("scenario"%string, MStr (sc_id scenario))] w in
  ({| samples := ls_samples st; metrics := m; errors := ls_errors st;
      retries := ls_retries st |}, w).

(** ** Arrays as shared objects

    [percentile] above reads an array as the sequence of its elements.
    To say that the caller's array is left alone, arrays are here
    objects of a store, named by references, and [Array.prototype.sort]
    updates the array it is called on. *)
Module Arr.

Abbreviation ref := nat (only parsing).
Abbreviation store := (gmap nat (list Qc)) (only parsing).

(** Computations over the store. *)
Definition M (A : Type) : Type := store -> A * store.

Definition ret {A} (a : A) : M A := fun st => (a, st).

Definition bind {A B} (m : M A) (f : A -> M B) : M B :=
  fun st => let '(a, st') := m st in f a st'.

Notation "x <- m ;; k" := (bind m (fun x => k))
  (at level 20, m at level 99, k at level 200, only parsing).

(** The elements of the array behind a reference. *)
Definition elems (a : ref) : M (list Qc) :=
  fun st => (match st !! a with Some l => l | None => [] end, st).

(** [[...arr]]: a new array object with the same elements. *)
Definition spread (arr : ref) : M ref :=
  fun st =>
    let l := match st !! arr with Some l => l | None => [] end in
    let r := fresh (dom st) in
    (r, <[r := l]> st).

(** [a.sort((x,y)=>x-y)]: sorts [a] in place and returns [a]. *)
Definition sort (a : ref) : M ref :=
  fun st => (a, alter sortAsc a st).

Definition percentile (arr : ref) (p : Qc) : M Qc :=
  l <- elems arr ;;
  if (length l =? 0)%nat then ret 0%Qc
  else
    c <- spread arr ;;
    a <- sort c ;;
    al <- elems a ;;
    let len := Z.of_nat (length al) in
    let idx := Math_ceil ((p / num 100) * num len)%Qc - 1 in
    ret (nth (Z.to_nat (Z.max 0 (Z.min (len - 1) idx))) al 0%Qc).

Definition mean (arr : ref) : M Qc :=
  l <- elems arr ;;
  if (length l =? 0)%nat then ret 0%Qc
  else ret (fold_left Qcplus l 0%Qc / num (Z.of_nat (length l)))%Qc.

(** The [metrics] object literal of [simulateRun], over the array
    object [samples]. *)
Definition computeMetrics (scenario : Scenario) (samples : ref) (errs rets : Z)
  : M Metrics :=
  avg <- mean samples ;;
  p50 <- percentile samples (num 50) ;;
  p95 <- percentile samples (num 95) ;;
  p99 <- percentile samples (num 99) ;;
  ret {| avg_ms := avg; p50_ms := p50; p95_ms := p95; p99_ms := p99;
         error_rate := (num errs / sc_n scenario)%Qc;
         retry_rate := (num rets / sc_n scenario)%Qc |}.

(** For contrast only, not in the source: a percentile that sorts the
    caller's array itself. *)
Definition percentileInPlace (arr : ref) (p : Qc) : M Qc :=
  l <- elems arr ;;
  if (length l =? 0)%nat then ret 0%Qc
  else
    a <- sort arr ;;
    al <- elems a ;;
    let len := Z.of_nat (length al) in
    let idx := Math_ceil ((p / num 100) * num len)%Qc - 1 in
    ret (nth (Z.to_nat (Z.max 0 (Z.min (len - 1) idx))) al 0%Qc).

End Arr.

(** ** Run history

    The click handler of the Run button in [wireUi] stores every run:
    [state.runs.push(run); state.runs = state.runs.slice(-20)]; and
    [saveRuns] writes [state.runs.slice(-20)] to local storage. The
    history is modelled over any type of run records. *)

(** [arr.slice(-k)]: the last [k] elements, all of them when there are
    fewer. *)
Definition sliceLast {A : Type} (k : nat) (l : list A) : list A :=
  drop (length l - k) l.

Definition pushRun {A : Type} (run : A) (runs : list A) : list A :=
  sliceLast 20 (runs ++ [run]).

Definition savedRuns {A : Type} (runs : list A) : list A := sliceLast 20 runs.

(** ** The points of the latency chart

    The part of [drawChart] that prepares what is drawn, for a
    non-empty [samples]: the extremes, the down-sampled points and the
    ordinate of a value on a canvas of height [h]. *)

(** [Math.max(...samples)] and [Math.min(...samples)], taken as defined
    for a sequence of any length: the limit an engine puts on the
    number of arguments of a call is not modelled. *)
Definition maxOf (l : list Qc) : Qc :=
  match l with [] => 0%Qc | x :: rest => fold_left Math_max rest x end.

Definition minOf (l : list Qc) : Qc :=
  match l with [] => 0%Qc | x :: rest => fold_left Math_min rest x end.

(** [const range = Math.max(1, max-min)]. *)
Definition chartRange (samples : list Qc) : Qc :=
  Math_max (num 1) (maxOf samples - minOf samples)%Qc.

(** [const step = Math.max(1, Math.floor(samples.length / maxPoints))]
    with [maxPoints = 800]. *)
Definition chartStep (len : nat) : nat := Nat.max 1 (len / 800).

(** [for (let i=0;i<samples.length;i+=step) pts.push(samples[i])]. *)
Fixpoint chartLoop (fuel step i : nat) (samples pts : list Qc) : list Qc :=
  match fuel with
  | O => pts
  | S fuel' =>
      if (i <? length samples)%nat
      then chartLoop fuel' step (i + step) samples (pts ++ [nth i samples 0%Qc])
      else pts
  end.

Definition chartPoints (samples : list Qc) : list Qc :=
  chartLoop (length samples) (chartStep (length samples)) 0 samples [].

(** [const y = pad + (1 - (pts[i]-min)/range) * innerH] with [pad = 30]
    and [innerH = h - pad*2]. *)
Definition chartY (h : Qc) (samples : list Qc) (v : Qc) : Qc :=
  let pad := num 30 in
  let innerH := (h - pad * num 2)%Qc in
  (pad + (num 1 - (v - minOf samples) / chartRange samples) * innerH)%Qc.

(** * Vocabulary of the properties *)

(** ** Statistics: nearest rank, arithmetic mean *)

(** The specification's reading of the two statistics: the nearest-rank
    index [ceil(p/100 * length) - 1] clamped to the valid indices, and
    the sum of a sequence. *)
Definition spec_rank (len : Z) (p : Qc) : Z :=
  Z.max 0 (Z.min (len - 1) (Qceiling (p / num 100 * num len)%Qc - 1)).

Definition spec_sum (l : list Qc) : Qc := fold_right Qcplus 0%Qc l.

(** ** Scenario normalisation *)

(** A scenario read back as form input: every box holds the
    scenario's value. *)
Definition asRaw (s : Scenario) : RawInput :=
  {| raw_netType := sc_netType s;
     raw_latency := Some (sc_latency s);
     raw_jitter := Some (sc_jitter s);
     raw_loss := Some (sc_loss s);
     raw_bw := Some (sc_bw s);
     raw_mix := sc_mix s;
     raw_n := Some (sc_n s);
     raw_seed := Some (sc_seed s) |}.

(** The declared range of every numeric field. *)
Definition inRange (s : Scenario) : Prop :=
  (num 0 <= sc_latency s <= num 5000)%Qc /\
  (num 0 <= sc_jitter s <= num 2000)%Qc /\
  (num 0 <= sc_loss s <= num 30)%Qc /\
  (num 64 <= sc_bw s <= num 1000000)%Qc /\
  (num 10 <= sc_n s <= num 200000)%Qc /\
  (num 1 <= sc_seed s <= num 2147483647)%Qc.

(** Two scenarios agree on the eight fields other than [id]. *)
Definition sameFields (s1 s2 : Scenario) : Prop :=
  with_id s1 EmptyString = with_id s2 EmptyString.

(** ** The offline risk engine *)

(** The pool of a scenario, if it has been created. *)
Definition poolOf (s : Scenario) (w : World) : option Pool :=
  tokenPools w !! sc_id s.

(** The message of the entry pushed last: after a risk check, the
    branch the check took. *)
Definition lastMsg (w : World) : option string := msg <$> last (logs w).

(** A sequence of risk checks against one scenario, one per amount;
    the verdicts in order, and the world afterwards. *)
Fixpoint riskChecks (h : Host) (s : Scenario) (amounts : list Qc) (w : World)
  : list bool * World :=
  match amounts with
  | [] => ([], w)
  | a :: rest =>
      let '(ok, w1) := riskCheck h s a w in
      let '(oks, w2) := riskChecks h s rest w1 in
      (ok :: oks, w2)
  end.

(** A token no scan can return: used, or expired at every reading of
    the clock. *)
Definition unusable (h : Host) (t : Token) : Prop :=
  tok_used t = true \/ forall k : nat, (tok_expiresAt t <= num (Date_now h k))%Qc.

(** A token that is unexpired at every reading of the clock. *)
Definition neverExpires (h : Host) (t : Token) : Prop :=
  forall k : nat, (num (Date_now h k) < tok_expiresAt t)%Qc.

(** The pool after the token at index [i] has been consumed for
    [amount]: lines 177-178 of [riskCheck]. *)
Definition consumed (p : Pool) (i : nat) (amount : Qc) : Pool :=
  {| tokens := alter markUsed i (tokens p);
     cumulative := (cumulative p + amount)%Qc;
     limit := limit p;
     threshold := threshold p |}.

(** The state of a pool of 100 unexpiring tokens after [j] accepted
    checks of amount 1: exactly the first [j] tokens are used. *)
Definition drawnDown (h : Host) (j : nat) (p : Pool) : Prop :=
  length (tokens p) = 100%nat /\
  (forall m t, tokens p !! m = Some t ->
     tok_used t = bool_decide (m < j)%nat /\ neverExpires h t) /\
  cumulative p = num (Z.of_nat j) /\
  limit p = num 100.

(** No token of a pool created now will have expired at any later
    reading of the clock. *)
Definition noExpiry (h : Host) (w : World) : Prop :=
  forall k j : nat,
    (num (Date_now h k)
     < num (Date_now h (nowCalls w)) + msPerDay (num 3 + Math_random h j))%Qc.

(** The exhaustion scenario as the specification words it: the first
    100 of 101 checks of amount 1 are accepted and the last is rejected
    on the cumulative-limit branch. *)
Definition exhaustionViaLimit (h : Host) (s : Scenario) (w : World) : Prop :=
  let r := riskChecks h s (replicate 101 (num 1)) w in
  fst r = replicate 100 true ++ [false] /\ lastMsg (snd r) = Some msgLimit.

(** *** The token budget *)

(** What a pool has spent, which of its tokens are used, and how many;
    a scenario without a pool has spent nothing and used no token. *)
Definition spent (s : Scenario) (w : World) : Qc :=
  match poolOf s w with Some p => cumulative p | None => 0%Qc end.

Definition tokenUsed (s : Scenario) (w : World) (i : nat) : bool :=
  match poolOf s w with
  | Some p => match tokens p !! i with Some t => tok_used t | None => false end
  | None => false
  end.

Fixpoint countUsed (ts : list Token) : nat :=
  match ts with
  | [] => 0
  | t :: rest => ((if tok_used t then 1 else 0) + countUsed rest)%nat
  end.

Definition usedCount (s : Scenario) (w : World) : nat :=
  match poolOf s w with Some p => countUsed (tokens p) | None => 0%nat end.

Fixpoint countAccepted (oks : list bool) : nat :=
  match oks with
  | [] => 0
  | ok :: rest => ((if ok then 1 else 0) + countAccepted rest)%nat
  end.

Definition withinLimit (s : Scenario) (w : World) : Prop :=
  forall p : Pool, poolOf s w = Some p -> (cumulative p <= limit p)%Qc.

(** How the pool of [s] in [w'] relates to the one in [w] after
    checks of which [k] were accepted. *)
Definition budgetStep (s : Scenario) (w w' : World) (k : nat) : Prop :=
  (spent s w <= spent s w')%Qc /\
  withinLimit s w' /\
  (forall i : nat, tokenUsed s w i = true -> tokenUsed s w' i = true) /\
  usedCount s w' = (usedCount s w + k)%nat.

(** ** The trial loop *)


(** The draws of one trial, in order, from the generator state [g]:
    [draw 0 g] is the next call of [rand()], [draw 1 g] the one after. *)
Fixpoint draw (k : nat) (g : Z) : Qc :=
  match k with
  | O => fst (rand_next g)
  | S k' => draw k' (snd (rand_next g))
  end.

(** ** Reproducibility of a run *)

(** What a run can observe of the scenario's pool while no token
    expires: which tokens are used, [cumulative] and [limit]. A pool
    not yet created looks like the fresh pool it will be. *)
Definition PoolView : Type := list bool * Qc * Qc.

Definition viewOf (p : Pool) : PoolView :=
  (tok_used <$> tokens p, cumulative p, limit p).

Definition freshView : PoolView := (replicate 100 false, num 0, num 100).

Definition view (s : Scenario) (w : World) : PoolView :=
  match poolOf s w with Some p => viewOf p | None => freshView end.

(** No token of the scenario's pool expires at any reading of the clock. *)
Definition unexpiring (h : Host) (s : Scenario) (w : World) : Prop :=
  forall p : Pool, poolOf s w = Some p -> Forall (neverExpires h) (tokens p).

(** The page session is shorter than a token's life: no reading of the
    clock reaches the expiry of a token created at any other reading. *)
Definition shortSession (h : Host) : Prop :=
  forall k k' j : nat,
    (num (Date_now h k) < num (Date_now h k') + msPerDay (num 3 + Math_random h j))%Qc.

Fixpoint firstUnused (flags : list bool) (i : nat) : option nat :=
  match flags with
  | [] => None
  | b :: rest => if b then firstUnused rest (S i) else Some i
  end.

(** [riskCheck] on a view. *)
Definition checkView (v : PoolView) (a : Qc) : bool * PoolView :=
  let '(flags, cum, lim) := v in
  match firstUnused flags 0 with
  | None => (false, v)
  | Some i =>
      if Qc_ltb lim (cum + a)%Qc then (false, v)
      else (true, (<[i := true]> flags, (cum + a)%Qc, lim))
  end.

(** Two loop states, each under its own host, that agree on everything
    a trial reads. *)
Definition sameRun (h1 h2 : Host) (s : Scenario) (st1 st2 : LoopState) : Prop :=
  ls_rand st1 = ls_rand st2 /\
  ls_samples st1 = ls_samples st2 /\
  ls_errors st1 = ls_errors st2 /\
  ls_retries st1 = ls_retries st2 /\
  view s (ls_world st1) = view s (ls_world st2) /\
  unexpiring h1 s (ls_world st1) /\
  unexpiring h2 s (ls_world st2).

(** Two consecutive runs of one scenario, as the specification words
    reproducibility: identical samples and metrics. *)
Definition runTwiceSame (h : Host) (s : Scenario) (w : World) : Prop :=
  let first := simulateRun h s w in
  let second := simulateRun h s (snd first) in
  samples (fst first) = samples (fst second) /\
  metrics (fst first) = metrics (fst second).

(** ** Identifiers *)

(** The value of an upper-case hexadecimal digit, and of a string of
    them read most significant digit first. *)
Definition hexVal (c : ascii) : option Z :=
  let n := Z.of_nat (nat_of_ascii c) in
  if (48 <=? n) && (n <=? 57) then Some (n - 48)
  else if (65 <=? n) && (n <=? 70) then Some (n - 55)
  else None.

Fixpoint hexValue (s : string) (acc : Z) : option Z :=
  match s with
  | EmptyString => Some acc
  | String c rest =>
      match hexVal c with
      | Some d => hexValue rest (16 * acc + d)
      | None => None
      end
  end.

(** ** The risk engine, continued *)


(** The tokens a scenario can still spend: those unused in its pool,
    or the 100 of the pool to come when there is none yet. *)
Definition unusedCount (s : Scenario) (w : World) : Z :=
  match poolOf s w with
  | Some p => Z.of_nat (length (tokens p)) - Z.of_nat (countUsed (tokens p))
  | None => 100
  end.

(** ** The run, continued *)

(** The counters of a loop state are consistent with its samples: no
    sample is negative, and neither count exceeds the number of trials
    made. *)
Definition countsOk (st : LoopState) : Prop :=
  Forall (fun x => (0 <= x)%Qc) (ls_samples st) /\
  0 <= ls_errors st <= Z.of_nat (length (ls_samples st)) /\
  0 <= ls_retries st <= Z.of_nat (length (ls_samples st)).

(** The trials of a loop state that did not end in an error. *)
Definition cleanTrials (st : LoopState) : Z :=
  Z.of_nat (length (ls_samples st)) - ls_errors st.

(** Two pools hold the same tokens, up to their [used] flags, under
    the same limit. *)
Definition sameTokens (p p' : Pool) : Prop :=
  tok_id <$> tokens p' = tok_id <$> tokens p /\
  tok_expiresAt <$> tokens p' = tok_expiresAt <$> tokens p /\
  limit p' = limit p /\
  threshold p' = threshold p.

(** * Data for examples *)

(** ** Hosts

    A frozen clock, a constant [Math.random()], and a [JSON.stringify]
    that agrees with the browser's on integers, on short terminating
    decimals and on strings that need no escaping. *)

(** The decimal digits of [r / d] for [0 <= r < d], at most [fuel] of
    them ([hexDigit] below ten is the decimal digit). *)
Fixpoint fracDigits (fuel : nat) (r d : Z) : string :=
  match fuel with
  | O => EmptyString
  | S f =>
      if r =? 0 then EmptyString
      else String (hexDigit (r * 10 / d)) (fracDigits f (r * 10 mod d) d)
  end.

Definition decimalString (q : Qc) : string :=
  let n := Qnum (this q) in
  let d := Zpos (Qden (this q)) in
  let a := Z.abs n in
  let sign := if n <? 0 then "-"%string else EmptyString in
  let whole := pretty (a / d) in
  let frac :=
    if a mod d =? 0 then EmptyString
    else ("." ++ fracDigits 17 (a mod d) d)%string in
  (sign ++ whole ++ frac)%string.

Definition demoHost : Host :=
  {| Date_now := fun _ => 1700000000000;
     Math_random := fun _ => Q2Qc (1 # 2);
     JSON_number := decimalString;
     JSON_string := fun s => (dquote ++ s ++ dquote)%string |}.

(** The specification's example scenario, as form input and normalised. *)
Definition demoRaw : RawInput :=
  {| raw_netType := "public_internet";
     raw_latency := Some (num 150);
     raw_jitter := Some (num 30);
     raw_loss := Some (num 5);
     raw_bw := Some (num 512);
     raw_mix := "tap_to_pay";
     raw_n := Some (num 1000);
     raw_seed := Some (num 42) |}.

Definition demoScenario : Scenario := getScenario demoHost demoRaw.

(** A second host: the clock advances by a second at every reading
    during the first day and then stands still, and [Math.random()]
    returns 1/4. *)
Definition tickingHost : Host :=
  {| Date_now := fun k => 1700000000000 + 1000 * Z.min (Z.of_nat k) 86400;
     Math_random := fun _ => Q2Qc (1 # 4);
     JSON_number := decimalString;
     JSON_string := fun s => (dquote ++ s ++ dquote)%string |}.

(** The world after a risk check of amount 101 under [demoHost]: the
    pool exists, and the check was rejected on the limit branch. *)
Definition pooledWorld : World :=
  snd (riskCheck demoHost demoScenario (num 101) initialWorld).

(** ** Inputs, pools and stores *)

(** The form filled in as for [demoRaw], with 10.5 in the box for [n]. *)
Definition fractionalRaw : RawInput :=
  {| raw_netType := "public_internet";
     raw_latency := Some (num 150);
     raw_jitter := Some (num 30);
     raw_loss := Some (num 5);
     raw_bw := Some (num 512);
     raw_mix := "tap_to_pay";
     raw_n := Some (Q2Qc (21 # 2));
     raw_seed := Some (num 42) |}.

(** The pool [initTokenPool] makes under [demoHost]. *)
Definition demoPool : Pool :=
  {| tokens := (fun i => newToken 1700000000000 i (Q2Qc (1 # 2))) <$> seq 0 100;
     cumulative := num 0; limit := num 100; threshold := num 100 |}.

(** An array store with one array, at reference 0. *)
Definition demoStore : Arr.store := {[ 0%nat := [num 3; num 1; num 2] ]}.

(** * Properties *)

(** ** The embedding on known values *)

(** FNV-1a test vectors. *)

Example hashId_empty : hashId EmptyString = "SCN-811C9DC5"%string.
Proof. vm_compute. reflexivity. Qed.

Example hashId_a : hashId "a" = "SCN-E40C292C"%string.
Proof. vm_compute. reflexivity. Qed.

Example hashId_foobar : hashId "foobar" = "SCN-BF9CF968"%string.
Proof. vm_compute. reflexivity. Qed.

(** The number formatting of [demoHost]. *)
Example decimalString_examples :
  decimalString (num 1000) = "1000"%string /\
  decimalString (Q2Qc (21 # 2)) = "10.5"%string /\
  decimalString (Q2Qc (-3 # 8)) = "-0.375"%string.
Proof. vm_compute. repeat split. Qed.

(** The id of the specification's example scenario. *)
Example demoScenario_id : sc_id demoScenario = "SCN-C8F4D387"%string.
Proof. vm_compute. reflexivity. Qed.

(** The first draw of the generator seeded with 42. *)
Example rand_next_42 :
  this (fst (rand_next (seededRand (num 42)))) = (645430239 # 1073741824)%Q.
Proof. vm_compute. reflexivity. Qed.

(** ** Comparisons, [Math.max], [Math.min] and [clamp] *)

Lemma Qc_ltb_lt (x y : Qc) : Qc_ltb x y = true <-> (x < y)%Qc.
Proof.
  unfold Qc_ltb. rewrite Qclt_alt.
  destruct (x ?= y)%Qc; intuition congruence.
Qed.

Lemma Qc_ltb_ge (x y : Qc) : Qc_ltb x y = false <-> (y <= x)%Qc.
Proof.
  rewrite Qcle_ngt, <- Qc_ltb_lt.
  destruct (Qc_ltb x y); intuition congruence.
Qed.

Ltac case_ltb x y :=
  let E := fresh "E" in
  destruct (Qc_ltb x y) eqn:E;
  [apply Qc_ltb_lt in E | apply Qc_ltb_ge in E].

Lemma Math_max_l (x y : Qc) : (x <= Math_max x y)%Qc.
Proof.
  unfold Math_max. case_ltb x y;
    [by apply Qclt_le_weak | apply Qcle_refl].
Qed.

Lemma Math_max_r (x y : Qc) : (y <= Math_max x y)%Qc.
Proof. unfold Math_max. case_ltb x y; [apply Qcle_refl | done]. Qed.

Lemma Math_max_lub (x y z : Qc) :
  (x <= z)%Qc -> (y <= z)%Qc -> (Math_max x y <= z)%Qc.
Proof. unfold Math_max. by destruct (Qc_ltb x y). Qed.

Lemma Math_min_l (x y : Qc) : (Math_min x y <= x)%Qc.
Proof.
  unfold Math_min. case_ltb y x;
    [by apply Qclt_le_weak | apply Qcle_refl].
Qed.

Lemma Math_min_r (x y : Qc) : (Math_min x y <= y)%Qc.
Proof. unfold Math_min. case_ltb y x; [apply Qcle_refl | done]. Qed.

Lemma Math_min_glb (x y z : Qc) :
  (z <= x)%Qc -> (z <= y)%Qc -> (z <= Math_min x y)%Qc.
Proof. unfold Math_min. by destruct (Qc_ltb y x). Qed.

Lemma clamp_range (n lo hi : Qc) :
  (lo <= hi)%Qc -> (lo <= clamp n lo hi <= hi)%Qc.
Proof.
  intros Hlh. unfold clamp. split; [apply Math_max_l |].
  apply Math_max_lub; [done | apply Math_min_l].
Qed.

Lemma clamp_fixed (n lo hi : Qc) :
  (lo <= n <= hi)%Qc -> clamp n lo hi = n.
Proof.
  intros [Hlo Hhi]. unfold clamp, Math_max, Math_min.
  case_ltb n hi.
  - case_ltb lo n; [done | by apply Qcle_antisym].
  - assert (hi = n) as -> by (by apply Qcle_antisym).
    case_ltb lo n; [done | by apply Qcle_antisym].
Qed.


Lemma num_le (a b : Z) : a <= b -> (num a <= num b)%Qc.
Proof. intros. unfold num, Qcle. simpl. by rewrite <- Zle_Qle. Qed.

Lemma num_lt (a b : Z) : a < b -> (num a < num b)%Qc.
Proof. intros. unfold num, Qclt. simpl. by rewrite <- Zlt_Qlt. Qed.

(** ** Sorting *)

Lemma insertAsc_perm (x : Qc) (l : list Qc) : Permutation (insertAsc x l) (x :: l).
Proof.
  induction l as [|y l IH]; simpl; [done |].
  destruct (Qc_ltb x y); [done |].
  rewrite IH. apply perm_swap.
Qed.

Lemma sortAsc_perm (l : list Qc) : Permutation (sortAsc l) l.
Proof.
  induction l as [|x l IH]; simpl; [done |].
  rewrite insertAsc_perm. by constructor.
Qed.

Lemma sortAsc_length (l : list Qc) : length (sortAsc l) = length l.
Proof. apply Permutation_length, sortAsc_perm. Qed.

Lemma insertAsc_sorted (x : Qc) (l : list Qc) :
  Sorted Qcle l -> Sorted Qcle (insertAsc x l).
Proof.
  induction 1 as [|y l Hs IH Hhd]; simpl.
  - repeat constructor.
  - case_ltb x y.
    + constructor; [by constructor |].
      constructor. by apply Qclt_le_weak.
    + constructor; [done |].
      destruct Hhd as [|z l' Hyz]; simpl.
      * by constructor.
      * destruct (Qc_ltb x z); by constructor.
Qed.

Lemma sortAsc_sorted (l : list Qc) : Sorted Qcle (sortAsc l).
Proof.
  induction l as [|x l IH]; simpl; [constructor |].
  by apply insertAsc_sorted.
Qed.


Lemma sorted_nth_le (l : list Qc) (i j : nat) (d : Qc) :
  Sorted Qcle l -> (i <= j < length l)%nat -> (nth i l d <= nth j l d)%Qc.
Proof.
  intros Hs%(Sorted_StronglySorted Qcle). revert i j.
  induction Hs as [|x l Hs IH Hall]; intros i j [Hij Hj]; simpl in *; [lia |].
  destruct j as [|j].
  - assert (i = 0)%nat as -> by lia. apply Qcle_refl.
  - destruct i as [|i].
    + rewrite Forall_forall in Hall. apply Hall, list_elem_of_In, nth_In. lia.
    + apply IH. lia.
Qed.

(** ** Statistics: nearest rank, arithmetic mean *)

Lemma num_0 : num 0 = 0%Qc.
Proof. apply Z2Qc_inj_0. Qed.

Lemma num_nonneg (z : Z) : 0 <= z -> (0 <= num z)%Qc.
Proof. intros. rewrite <- num_0. by apply num_le. Qed.

Lemma spec_rank_range (len : Z) (p : Qc) :
  0 < len -> 0 <= spec_rank len p < len.
Proof. unfold spec_rank. lia. Qed.

Lemma spec_rank_mono (len : Z) (p q : Qc) :
  0 <= len -> (p <= q)%Qc -> spec_rank len p <= spec_rank len q.
Proof.
  intros Hlen Hpq. unfold spec_rank.
  assert (Qceiling (p / num 100 * num len)%Qc <= Qceiling (q / num 100 * num len)%Qc).
  { apply Qceiling_resp_le.
    change ((p / num 100 * num len)%Qc <= (q / num 100 * num len)%Qc)%Qc.
    apply Qcmult_le_mono_nonneg_r; [by apply num_nonneg |].
    apply Qcmult_le_mono_nonneg_r; [| done].
    apply Qclt_le_weak, Qcinv_pos. rewrite <- num_0. by apply num_lt. }
  lia.
Qed.

Lemma percentile_nonempty (arr : list Qc) (p : Qc) :
  arr <> [] ->
  percentile arr p
  = nth (Z.to_nat (spec_rank (Z.of_nat (length arr)) p)) (sortAsc arr) 0%Qc.
Proof.
  intros Hne. unfold percentile, spec_rank, Math_ceil.
  destruct arr as [|x arr]; [done |].
  rewrite sortAsc_length. reflexivity.
Qed.

Lemma percentile_mono (s : list Qc) (p q : Qc) :
  (p <= q)%Qc -> (percentile s p <= percentile s q)%Qc.
Proof.
  intros Hpq. destruct (decide (s = [])) as [-> | Hne].
  - apply Qcle_refl.
  - rewrite !percentile_nonempty by done.
    assert (0 < Z.of_nat (length s)) as Hlen by (destruct s; [done | simpl; lia]).
    pose proof (spec_rank_range _ p Hlen).
    pose proof (spec_rank_range _ q Hlen).
    pose proof (spec_rank_mono (Z.of_nat (length s)) p q ltac:(lia) Hpq).
    apply sorted_nth_le; [apply sortAsc_sorted |].
    rewrite sortAsc_length. lia.
Qed.

Lemma fold_left_Qcplus (l : list Qc) (a : Qc) :
  fold_left Qcplus l a = (a + spec_sum l)%Qc.
Proof.
  revert a. induction l as [|x l IH]; intros a; simpl.
  - by rewrite Qcplus_0_r.
  - rewrite IH. ring.
Qed.

(** On three samples: rank 0 for p = 0, the middle element at p = 50,
    the last from p = 67 on, also beyond 100. *)
Example percentile_examples :
  map (fun p => this (percentile [num 3; num 1; num 2] (num p))) [0; 50; 67; 100; 250]
  = [1 # 1; 2 # 1; 3 # 1; 3 # 1; 3 # 1]%Q.
Proof. vm_compute. reflexivity. Qed.


(** C8. For a fixed sample sequence the percentiles are ordered,
    [percentile s 50 <= percentile s 95 <= percentile s 99], and more
    generally [percentile] is monotone in its percentile argument. *)
Theorem percentile_monotone (s : list Qc) :
  (percentile s (num 50) <= percentile s (num 95) <= percentile s (num 99))%Qc /\
  forall p q : Qc, (p <= q)%Qc -> (percentile s p <= percentile s q)%Qc.
Proof.
  split; [split |].
  - apply percentile_mono, num_le. lia.
  - apply percentile_mono, num_le. lia.
  - intros p q. apply percentile_mono.
Qed.

(** ** Scenario normalisation *)



Lemma getScenario_inRange (h : Host) (raw : RawInput) : inRange (getScenario h raw).
Proof.
  unfold inRange, getScenario; simpl.
  repeat split; apply clamp_range, num_le; lia.
Qed.



(** An out-of-range latency is clamped before hashing: 9999 and 5000
    give the same scenario, id included. *)
Example getScenario_clamps_before_hashing :
  getScenario demoHost
    {| raw_netType := "private_apn"; raw_latency := Some (num 9999);
       raw_jitter := None; raw_loss := None; raw_bw := None;
       raw_mix := "other"; raw_n := None; raw_seed := None |}
  = getScenario demoHost
    {| raw_netType := "private_apn"; raw_latency := Some (num 5000);
       raw_jitter := Some (num 0); raw_loss := Some (num 0); raw_bw := Some (num 64);
       raw_mix := "other"; raw_n := Some (num 1000); raw_seed := Some (num 42) |}.
Proof.
  unfold getScenario, numberOr; simpl.
  rewrite !(clamp_fixed (num 5000)), !(clamp_fixed (num 0) (num 0)),
    !(clamp_fixed (num 64)), !(clamp_fixed (num 1000)), !(clamp_fixed (num 42))
    by (split; apply num_le; lia).
  assert (clamp (num 9999) (num 0) (num 5000) = num 5000) as ->.
  { apply Qc_is_canon. reflexivity. }
  assert (clamp (num 0) (num 64) (num 1000000) = num 64) as ->.
  { apply Qc_is_canon. reflexivity. }
  reflexivity.
Qed.

(** ** [percentile] and the caller's array *)

Lemma Arr_fresh_None (st : Arr.store) : st !! fresh (dom st) = None.
Proof. apply not_elem_of_dom, is_fresh. Qed.

(** What a call of [Arr.percentile] returns and the store it leaves:
    the value is [percentile] of the elements, and the only change is a
    new array holding the sorted copy. *)
Lemma Arr_percentile_run (arr : Arr.ref) (p : Qc) (st : Arr.store) (l : list Qc) :
  st !! arr = Some l ->
  Arr.percentile arr p st
  = (percentile l p,
     if (length l =? 0)%nat then st else <[fresh (dom st) := sortAsc l]> st).
Proof.
  intros Hl. unfold Arr.percentile, Arr.bind, Arr.elems, percentile.
  rewrite Hl. destruct (length l =? 0)%nat; [reflexivity |].
  unfold Arr.spread, Arr.sort, Arr.ret. rewrite Hl.
  rewrite alter_insert_eq, lookup_insert_eq. reflexivity.
Qed.

Lemma Arr_percentile_frame (arr : Arr.ref) (p : Qc) (st : Arr.store) (l : list Qc) :
  st !! arr = Some l ->
  forall r : Arr.ref,
    is_Some (st !! r) -> snd (Arr.percentile arr p st) !! r = st !! r.
Proof.
  intros Hl r [x Hr]. rewrite (Arr_percentile_run arr p st l Hl); simpl.
  destruct (length l =? 0)%nat; [done |].
  apply lookup_insert_ne. intros <-. by rewrite Arr_fresh_None in Hr.
Qed.

Lemma Arr_mean_run (arr : Arr.ref) (st : Arr.store) (l : list Qc) :
  st !! arr = Some l -> Arr.mean arr st = (mean l, st).
Proof.
  intros Hl. unfold Arr.mean, Arr.bind, Arr.elems, Arr.ret, mean. rewrite Hl.
  by destruct (length l =? 0)%nat.
Qed.

Lemma Arr_percentile_keeps (arr : Arr.ref) (p : Qc) (st : Arr.store) (l : list Qc) :
  st !! arr = Some l ->
  exists st' : Arr.store,
    Arr.percentile arr p st = (percentile l p, st') /\ st' !! arr = Some l.
Proof.
  intros Hl.
  pose proof (Arr_percentile_frame arr p st l Hl arr ltac:(eauto)) as Hf.
  rewrite (Arr_percentile_run arr p st l Hl) in *. simpl in Hf.
  eexists. split; [reflexivity |]. by rewrite Hf.
Qed.

Lemma Arr_computeMetrics_run (s : Scenario) (arr : Arr.ref) (e r : Z)
    (st : Arr.store) (l : list Qc) :
  st !! arr = Some l ->
  fst (Arr.computeMetrics s arr e r st) = computeMetrics s l e r /\
  snd (Arr.computeMetrics s arr e r st) !! arr = Some l.
Proof.
  intros Hl. unfold Arr.computeMetrics, Arr.bind.
  rewrite (Arr_mean_run arr st l Hl).
  destruct (Arr_percentile_keeps arr (num 50) st l Hl) as (st1 & -> & H1).
  destruct (Arr_percentile_keeps arr (num 95) st1 l H1) as (st2 & -> & H2).
  destruct (Arr_percentile_keeps arr (num 99) st2 l H2) as (st3 & -> & H3).
  simpl. by split.
Qed.

(** C10. [percentile] does not mutate its input. Called on an array
    object holding [l], it returns [percentile l p] and leaves that
    array, and every other array already in the store, element for
    element as it was (it sorts a fresh copy); hence computing the
    metrics leaves the samples array unchanged. *)
Theorem percentile_leaves_input (arr : Arr.ref) (p : Qc) (st : Arr.store) (l : list Qc) :
  st !! arr = Some l ->
  fst (Arr.percentile arr p st) = percentile l p /\
  snd (Arr.percentile arr p st) !! arr = Some l /\
  (forall r : Arr.ref,
     is_Some (st !! r) -> snd (Arr.percentile arr p st) !! r = st !! r) /\
  (forall (s : Scenario) (e r : Z),
     fst (Arr.computeMetrics s arr e r st) = computeMetrics s l e r /\
     snd (Arr.computeMetrics s arr e r st) !! arr = Some l).
Proof.
  intros Hl. split; [by rewrite (Arr_percentile_run arr p st l Hl) |].
  split; [rewrite <- Hl; apply (Arr_percentile_frame arr p st l Hl); eauto |].
  split; [by apply (Arr_percentile_frame arr p st l) |].
  intros s e r. by apply Arr_computeMetrics_run.
Qed.

Lemma percentile_leaves_input_witness :
  demoStore !! 0%nat = Some [num 3; num 1; num 2] /\
  snd (Arr.percentile 0%nat (num 50) demoStore) !! 0%nat = Some [num 3; num 1; num 2].
Proof.
  split; [reflexivity |].
  exact (proj1 (proj2 (percentile_leaves_input 0%nat (num 50) demoStore
                         [num 3; num 1; num 2] eq_refl))).
Defined.

(** The property is not automatic: sorting the caller's array itself
    would leave it rearranged. *)
Example percentileInPlace_mutates :
  snd (Arr.percentileInPlace 0%nat (num 50) demoStore) !! 0%nat
  = Some [num 1; num 2; num 3].
Proof.
  unfold Arr.percentileInPlace, Arr.bind, Arr.elems, Arr.sort, Arr.ret, demoStore.
  rewrite lookup_singleton_eq. simpl.
  rewrite lookup_alter_eq, lookup_singleton_eq. simpl.
  reflexivity.
Qed.

(** ** The offline risk engine *)

Lemma findToken_unusable (h : Host) (ts : list Token) (i k : nat) :
  Forall (unusable h) ts -> fst (findToken h ts i k) = None.
Proof.
  intros Hall. revert i k.
  induction Hall as [|t ts [Hu | He] _ IH]; intros i k; simpl; [done | |].
  - rewrite Hu. apply IH.
  - destruct (tok_used t); [apply IH |].
    case_ltb (num (Date_now h k)) (tok_expiresAt t); [| apply IH].
    exfalso. by eapply Qclt_not_le, He.
Qed.

(** The scan returns the index of an unused token, and every token
    before it was used or expired when the scan read the clock. *)
Lemma findToken_sound (h : Host) (ts : list Token) (i k j k' : nat) :
  findToken h ts i k = (Some j, k') ->
  exists t : Token,
    (i <= j)%nat /\ ts !! (j - i)%nat = Some t /\ tok_used t = false /\
    (num (Date_now h (pred k')) < tok_expiresAt t)%Qc.
Proof.
  revert i k. induction ts as [|t ts IH]; intros i k; simpl; [done |].
  destruct (tok_used t) eqn:Hu.
  - intros (t' & Hle & Hl & H')%IH. exists t'. split; [lia |].
    split; [| done]. by replace (j - i)%nat with (S (j - S i)) by lia.
  - case_ltb (num (Date_now h k)) (tok_expiresAt t).
    + intros [= <- <-]. exists t. rewrite Nat.sub_diag. by repeat split.
    + intros (t' & Hle & Hl & H')%IH. exists t'. split; [lia |].
      split; [| done]. by replace (j - i)%nat with (S (j - S i)) by lia.
Qed.

(** With the first [j] tokens used and the token at [j] unused and
    unexpired, the scan returns [j] after one reading of the clock. *)
Lemma findToken_first (h : Host) (ts : list Token) (i k j : nat) (t : Token) :
  (forall m t', (m < j)%nat -> ts !! m = Some t' -> tok_used t' = true) ->
  ts !! j = Some t -> tok_used t = false -> neverExpires h t ->
  findToken h ts i k = (Some (i + j)%nat, S k).
Proof.
  revert i j. induction ts as [|t0 ts IH]; intros i j Hpre Hj Hu Hne; [done |].
  destruct j as [|j]; simpl in *.
  - injection Hj as ->. rewrite Hu.
    pose proof (Hne k) as Hk. apply Qc_ltb_lt in Hk. rewrite Hk.
    by rewrite Nat.add_0_r.
  - rewrite (Hpre 0%nat t0) by (done || lia).
    rewrite (IH (S i) j); [f_equal; f_equal; lia | | done..].
    intros m t' Hm. apply (Hpre (S m)). lia.
Qed.

(** The pool is there once [ensurePool] has run. *)
Lemma ensurePool_poolOf (h : Host) (s : Scenario) (w : World) :
  exists p : Pool, poolOf s (ensurePool h s w) = Some p /\
    (poolOf s w = None \/ poolOf s w = Some p).
Proof.
  unfold ensurePool, poolOf. destruct (tokenPools w !! sc_id s) as [p|] eqn:E.
  - exists p. rewrite E. auto.
  - eexists. split; [| by left]. unfold initTokenPool; simpl.
    apply lookup_insert_eq.
Qed.

Lemma ensurePool_present (h : Host) (s : Scenario) (w : World) (p : Pool) :
  poolOf s w = Some p -> ensurePool h s w = w.
Proof. unfold ensurePool, poolOf. by intros ->. Qed.

(** The three ways out of [riskCheck], in the order the code tests them. *)
Lemma riskCheck_cases (h : Host) (s : Scenario) (amount : Qc) (w : World) (p : Pool) :
  poolOf s (ensurePool h s w) = Some p ->
  let w0 := ensurePool h s w in
  let r := riskCheck h s amount w in
  match findToken h (tokens p) 0 (nowCalls w0) with
  | (None, _) =>
      fst r = false /\ lastMsg (snd r) = Some msgExhausted /\
      tokenPools (snd r) = tokenPools w0
  | (Some i, _) =>
      if Qc_ltb (limit p) (cumulative p + amount)%Qc then
        fst r = false /\ lastMsg (snd r) = Some msgLimit /\
        tokenPools (snd r) = tokenPools w0
      else
        fst r = true /\ lastMsg (snd r) = Some msgConsumed /\
        tokenPools (snd r) = <[sc_id s := consumed p i amount]> (tokenPools w0)
  end.
Proof.
  intros Hp. cbv zeta. unfold poolOf in Hp. unfold riskCheck. rewrite Hp.
  destruct (findToken h (tokens p) 0 (nowCalls (ensurePool h s w))) as [[i|] k].
  - destruct (Qc_ltb (limit p) (cumulative p + amount)%Qc); simpl;
      unfold lastMsg; simpl; by rewrite last_snoc.
  - simpl. unfold lastMsg; simpl. by rewrite last_snoc.
Qed.

(** *** Order of the two rejections *)

Lemma riskCheck_no_usable_token
    (h : Host) (s : Scenario) (amount : Qc) (w : World) (p : Pool) :
  poolOf s (ensurePool h s w) = Some p ->
  Forall (unusable h) (tokens p) ->
  fst (riskCheck h s amount w) = false /\
  lastMsg (snd (riskCheck h s amount w)) = Some msgExhausted.
Proof.
  intros Hp Hall. pose proof (riskCheck_cases h s amount w p Hp) as Hc.
  cbv zeta in Hc.
  pose proof (findToken_unusable h (tokens p) 0 (nowCalls (ensurePool h s w)) Hall) as Hn.
  destruct (findToken h (tokens p) 0 (nowCalls (ensurePool h s w))) as [[i|] k];
    [done | tauto].
Qed.




(** *** The exhaustion scenario *)

Lemma num_plus (a b : Z) : (num a + num b)%Qc = num (a + b).
Proof.
  apply Qc_is_canon. unfold num, Qc_of_Z, Qcplus, Q2Qc; simpl this.
  rewrite Qred_correct. by rewrite inject_Z_plus.
Qed.

Lemma fresh_pool_drawnDown (h : Host) (s : Scenario) (w : World) :
  poolOf s w = None -> noExpiry h w ->
  exists p : Pool, poolOf s (ensurePool h s w) = Some p /\ drawnDown h 0 p.
Proof.
  intros Hnone Hne. unfold ensurePool, poolOf in *. rewrite Hnone.
  unfold initTokenPool, log. cbn [tokenPools]. rewrite lookup_insert_eq.
  eexists. split; [reflexivity |]. unfold drawnDown. cbn [tokens cumulative limit].
  split; [by rewrite length_fmap, length_seq |]. split; [| done].
  intros m t. rewrite list_lookup_fmap.
  destruct (seq 0 100 !! m) as [i|] eqn:E; [| done].
  intros [= <-]. split; [done |]. intros k. apply Hne.
Qed.

Lemma riskCheck_accepts (h : Host) (s : Scenario) (w : World) (p : Pool) (j : nat) :
  poolOf s (ensurePool h s w) = Some p -> drawnDown h j p -> (j < 100)%nat ->
  fst (riskCheck h s (num 1) w) = true /\
  lastMsg (snd (riskCheck h s (num 1) w)) = Some msgConsumed /\
  exists p' : Pool,
    poolOf s (snd (riskCheck h s (num 1) w)) = Some p' /\ drawnDown h (S j) p'.
Proof.
  intros Hp (Hlen & Htok & Hcum & Hlim) Hj.
  pose proof (riskCheck_cases h s (num 1) w p Hp) as Hc. cbv zeta in Hc.
  destruct (lookup_lt_is_Some_2 (tokens p) j ltac:(lia)) as [t Ht].
  destruct (Htok j t Ht) as [Hu Hne].
  rewrite bool_decide_eq_false_2 in Hu by lia.
  rewrite (findToken_first h (tokens p) 0 _ j t) in Hc; [| | done..].
  2:{ intros m t' Hm Ht'. destruct (Htok m t' Ht') as [-> _].
      by apply bool_decide_eq_true_2. }
  assert (Qc_ltb (limit p) (cumulative p + num 1)%Qc = false) as Hok.
  { apply Qc_ltb_ge. rewrite Hlim, Hcum, num_plus. apply num_le. lia. }
  rewrite Hok in Hc. destruct Hc as (Hf & Hm & Hpools).
  split; [done |]. split; [done |].
  exists (consumed p (0 + j) (num 1)). unfold poolOf. rewrite Hpools.
  split; [apply lookup_insert_eq |].
  unfold drawnDown, consumed; simpl.
  split; [by rewrite length_alter |].
  split; [| split; [rewrite Hcum, num_plus; f_equal; lia | done]].
  intros m t'. rewrite list_lookup_alter. case_decide as Hmj.
  - subst m. rewrite Ht. intros [= <-]. simpl.
    split; [symmetry; apply bool_decide_eq_true_2; lia | exact Hne].
  - intros Ht'. destruct (Htok m t' Ht') as [-> Hne']. split; [| done].
    apply bool_decide_ext. lia.
Qed.

Lemma riskCheck_exhausted (h : Host) (s : Scenario) (a : Qc) (w : World) (p : Pool) :
  poolOf s (ensurePool h s w) = Some p -> drawnDown h 100 p ->
  fst (riskCheck h s a w) = false /\
  lastMsg (snd (riskCheck h s a w)) = Some msgExhausted.
Proof.
  intros Hp (Hlen & Htok & _).
  apply (riskCheck_no_usable_token h s a w p Hp).
  apply Forall_lookup. intros m t Ht. left.
  destruct (Htok m t Ht) as [-> _]. apply bool_decide_eq_true_2.
  apply lookup_lt_Some in Ht. lia.
Qed.

Lemma riskChecks_drawdown (h : Host) (s : Scenario) (m : nat) :
  forall (j : nat) (w : World) (p : Pool),
    poolOf s (ensurePool h s w) = Some p -> drawnDown h j p -> (j + m = 100)%nat ->
    fst (riskChecks h s (replicate m (num 1) ++ [num 1]) w) = replicate m true ++ [false] /\
    lastMsg (snd (riskChecks h s (replicate m (num 1) ++ [num 1]) w)) = Some msgExhausted.
Proof.
  induction m as [|m IH]; intros j w p Hp Hd Hjm; simpl.
  - assert (j = 100)%nat as -> by lia.
    destruct (riskCheck_exhausted h s (num 1) w p Hp Hd) as [Hf Hm].
    destruct (riskCheck h s (num 1) w) as [ok w1]; simpl in *. by subst ok.
  - destruct (riskCheck_accepts h s w p j Hp Hd ltac:(lia)) as (Hf & _ & p' & Hp' & Hd').
    destruct (riskCheck h s (num 1) w) as [ok w1]; simpl in *. subst ok.
    rewrite <- (ensurePool_present h s w1 p' Hp') in Hp'.
    destruct (IH (S j) w1 p' Hp' Hd' ltac:(lia)) as [Hoks Hmsg].
    destruct (riskChecks h s (replicate m (num 1) ++ [num 1]) w1) as [oks w2];
      simpl in *.
    by subst oks.
Qed.

(** C2, as stated, fails: from the empty world, with a frozen clock (no
    token expires), the 101st check finds every token used and is
    rejected on the exhaustion branch. *)
Lemma exhaustion_not_via_limit :
  ~ exhaustionViaLimit demoHost demoScenario initialWorld.
Proof.
  unfold exhaustionViaLimit. intros [_ H].
  vm_compute in H. discriminate H.
Qed.

(** C2, amended. From a world with no pool for the scenario, and with
    no token expiring, the first 100 of 101 risk checks of amount 1 are
    accepted and the 101st is rejected on the token-exhaustion branch:
    each accepted check has used up one of the 100 tokens, so the scan,
    which comes first, finds none left. *)
Theorem exhaustion_scenario (h : Host) (s : Scenario) (w : World) :
  poolOf s w = None -> noExpiry h w ->
  let r := riskChecks h s (replicate 101 (num 1)) w in
  fst r = replicate 100 true ++ [false] /\ lastMsg (snd r) = Some msgExhausted.
Proof.
  intros Hnone Hne. cbv zeta.
  destruct (fresh_pool_drawnDown h s w Hnone Hne) as (p & Hp & Hd).
  rewrite (replicate_S_end 100).
  by apply (riskChecks_drawdown h s 100 0 w p).
Qed.

Lemma demoHost_noExpiry : noExpiry demoHost initialWorld.
Proof. intros k j. vm_compute. reflexivity. Qed.

Lemma exhaustion_scenario_witness :
  poolOf demoScenario initialWorld = None /\
  noExpiry demoHost initialWorld /\
  fst (riskChecks demoHost demoScenario (replicate 101 (num 1)) initialWorld)
  = replicate 100 true ++ [false] /\
  lastMsg (snd (riskChecks demoHost demoScenario (replicate 101 (num 1)) initialWorld))
  = Some msgExhausted.
Proof.
  split; [reflexivity |]. split; [exact demoHost_noExpiry |].
  exact (exhaustion_scenario demoHost demoScenario initialWorld eq_refl demoHost_noExpiry).
Defined.

(** *** The token budget *)

Lemma countUsed_unused (ts : list Token) :
  Forall (fun t => tok_used t = false) ts -> countUsed ts = 0%nat.
Proof. induction 1 as [|t ts Ht _ IH]; simpl; [done |]. by rewrite Ht, IH. Qed.

Lemma countUsed_alter (ts : list Token) (i : nat) (t : Token) :
  ts !! i = Some t -> tok_used t = false ->
  countUsed (alter markUsed i ts) = S (countUsed ts).
Proof.
  revert i. induction ts as [|t0 ts IH]; intros [|i] Hi Hu; simpl in *; try done.
  - injection Hi as ->. by rewrite Hu.
  - change (list_alter markUsed i ts) with (alter markUsed i ts).
    rewrite (IH i) by done. lia.
Qed.

Lemma budgetStep_trans (s : Scenario) (w1 w2 w3 : World) (k1 k2 : nat) :
  budgetStep s w1 w2 k1 -> budgetStep s w2 w3 k2 -> budgetStep s w1 w3 (k1 + k2).
Proof.
  intros (Hs1 & _ & Hu1 & Hc1) (Hs2 & Hl2 & Hu2 & Hc2).
  split; [by eapply Qcle_trans |]. split; [done |].
  split; [auto | lia].
Qed.

Lemma ensurePool_budget (h : Host) (s : Scenario) (w : World) :
  withinLimit s w -> budgetStep s w (ensurePool h s w) 0.
Proof.
  intros Hlim. unfold ensurePool.
  destruct (tokenPools w !! sc_id s) as [p|] eqn:E.
  - split; [apply Qcle_refl |]. split; [done |]. split; [done | lia].
  - unfold budgetStep, spent, withinLimit, tokenUsed, usedCount, poolOf.
    rewrite E. unfold initTokenPool, log. cbn [tokenPools].
    rewrite lookup_insert_eq. cbn [tokens cumulative limit].
    split; [rewrite num_0; apply Qcle_refl |].
    split; [intros p [= <-]; cbn [cumulative limit]; apply num_le; lia |].
    split; [done |].
    rewrite countUsed_unused; [done |].
    apply Forall_fmap, Forall_forall. done.
Qed.

Lemma riskCheck_budget (h : Host) (s : Scenario) (a : Qc) (w : World) :
  (0 < a)%Qc -> withinLimit s w ->
  budgetStep s w (snd (riskCheck h s a w)) (if fst (riskCheck h s a w) then 1 else 0).
Proof.
  intros Ha Hlim.
  pose proof (ensurePool_budget h s w Hlim) as H0.
  replace (if fst (riskCheck h s a w) then 1 else 0)%nat
    with (0 + (if fst (riskCheck h s a w) then 1 else 0))%nat by lia.
  eapply budgetStep_trans; [exact H0 |].
  destruct H0 as (_ & Hlim0 & _).
  destruct (ensurePool_poolOf h s w) as (p & Hp & _).
  pose proof (riskCheck_cases h s a w p Hp) as Hc. cbv zeta in Hc.
  set (w0 := ensurePool h s w) in *.
  assert (forall w' : World,
            tokenPools w' = tokenPools w0 -> budgetStep s w0 w' 0) as Hsame.
  { intros w' Heq.
    unfold budgetStep, spent, withinLimit, tokenUsed, usedCount, poolOf in *.
    rewrite Heq. split; [apply Qcle_refl |]. split; [done |]. split; [done | lia]. }
  destruct (findToken h (tokens p) 0 (nowCalls w0)) as [[i|] k] eqn:Ef.
  2:{ destruct Hc as (-> & _ & Heq). by apply Hsame. }
  case_ltb (limit p) (cumulative p + a)%Qc.
  { destruct Hc as (-> & _ & Heq). by apply Hsame. }
  destruct Hc as (-> & _ & Heq).
  apply findToken_sound in Ef as (t & _ & Ht & Hu & _).
  rewrite Nat.sub_0_r in Ht.
  unfold budgetStep, spent, withinLimit, tokenUsed, usedCount, poolOf in *.
  rewrite Heq, Hp, lookup_insert_eq. cbn [consumed tokens cumulative limit].
  split.
  { rewrite <- (Qcplus_0_r (cumulative p)) at 1.
    apply Qcplus_le_mono_l. by apply Qclt_le_weak. }
  split; [intros p' [= <-]; cbn [consumed cumulative limit]; exact E |].
  split; [| rewrite (countUsed_alter _ _ t Ht Hu); lia].
  intros j. rewrite list_lookup_alter. case_decide as Hij; [| done].
  subst j. by rewrite Ht, Hu.
Qed.

Lemma riskChecks_budget (h : Host) (s : Scenario) (amounts : list Qc) :
  forall w : World,
    Forall (fun a => (0 < a)%Qc) amounts -> withinLimit s w ->
    budgetStep s w (snd (riskChecks h s amounts w))
      (countAccepted (fst (riskChecks h s amounts w))).
Proof.
  induction amounts as [|a amounts IH]; intros w Hpos Hlim; simpl.
  - split; [apply Qcle_refl |]. split; [done |]. split; [done | lia].
  - inversion Hpos as [|? ? Ha Hrest]; subst.
    pose proof (riskCheck_budget h s a w Ha Hlim) as H1.
    destruct (riskCheck h s a w) as [ok w1]; simpl in H1.
    assert (withinLimit s w1) as Hlim1 by apply H1.
    pose proof (IH w1 Hrest Hlim1) as H2.
    destruct (riskChecks h s amounts w1) as [oks w2]; simpl in *.
    by eapply budgetStep_trans.
Qed.

(** C4. Across any sequence of risk checks of positive amounts against
    one pool, taken at any two points of the sequence: [cumulative]
    does not decrease and stays within [limit]; a token that is used
    stays used; and the number of used tokens grows by exactly the
    number of accepted checks, so every accepted check marks a token
    that was unused until then and no token is marked twice. *)
Theorem token_budget (h : Host) (s : Scenario) (before after : list Qc) (w : World) :
  Forall (fun a => (0 < a)%Qc) (before ++ after) ->
  withinLimit s w ->
  let w1 := snd (riskChecks h s before w) in
  let r := riskChecks h s after w1 in
  (spent s w1 <= spent s (snd r))%Qc /\
  withinLimit s (snd r) /\
  (forall i : nat, tokenUsed s w1 i = true -> tokenUsed s (snd r) i = true) /\
  usedCount s (snd r) = (usedCount s w1 + countAccepted (fst r))%nat.
Proof.
  intros [Hb Ha]%Forall_app Hlim. cbv zeta.
  pose proof (riskChecks_budget h s before w Hb Hlim) as (_ & Hlim1 & _).
  exact (riskChecks_budget h s after _ Ha Hlim1).
Qed.

Lemma token_budget_witness :
  let before := [num 1; num 1] in
  let after := [num 98; num 1; num 1] in
  let w1 := snd (riskChecks demoHost demoScenario before initialWorld) in
  let r := riskChecks demoHost demoScenario after w1 in
  Forall (fun a => (0 < a)%Qc) (before ++ after) /\
  withinLimit demoScenario initialWorld /\
  (spent demoScenario w1 <= spent demoScenario (snd r))%Qc /\
  withinLimit demoScenario (snd r) /\
  (forall i : nat,
     tokenUsed demoScenario w1 i = true -> tokenUsed demoScenario (snd r) i = true) /\
  usedCount demoScenario (snd r)
  = (usedCount demoScenario w1 + countAccepted (fst r))%nat.
Proof.
  cbv zeta.
  assert (Forall (fun a => (0 < a)%Qc) ([num 1; num 1] ++ [num 98; num 1; num 1]))
    as Hpos by (repeat constructor).
  assert (withinLimit demoScenario initialWorld) as Hlim
    by (intros p Hp; unfold poolOf, initialWorld in Hp; simpl in Hp;
        rewrite lookup_empty in Hp; discriminate Hp).
  split; [exact Hpos |]. split; [exact Hlim |].
  exact (token_budget demoHost demoScenario [num 1; num 1] [num 98; num 1; num 1]
           initialWorld Hpos Hlim).
Defined.

(** In the run of the witness the two checks that follow the one of
    amount 98 are rejected on the limit branch: three tokens are used,
    and 100 is spent. *)
Example token_budget_example :
  let w1 := snd (riskChecks demoHost demoScenario [num 1; num 1] initialWorld) in
  let r := riskChecks demoHost demoScenario [num 98; num 1; num 1] w1 in
  fst r = [true; false; false] /\
  usedCount demoScenario (snd r) = 3%nat /\
  this (spent demoScenario (snd r)) = (100 # 1)%Q /\
  lastMsg (snd r) = Some msgLimit.
Proof. vm_compute. repeat split. Qed.

(** ** The trial loop *)

(** Every trial pushes exactly one sample. *)
Lemma trial_samples (h : Host) (s : Scenario) (i : Z) (st : LoopState) :
  exists x : Qc, ls_samples (trial h s i st) = ls_samples st ++ [x].
Proof.
  unfold trial.
  destruct (riskCheck h s (num 1) (ls_world st)) as [[|] w];
    cbn [negb ls_samples]; eauto.
Qed.

(** The guard [i < scenario.n] at an integer index. *)
Lemma guard_ceiling (i : Z) (n : Qc) :
  Qc_ltb (num i) n = true <-> i < Qceiling n.
Proof.
  rewrite Qc_ltb_lt. unfold Qclt, num, Qc_of_Z; simpl this. split.
  - intros Hlt. rewrite Zlt_Qlt.
    eapply Qlt_le_trans; [exact Hlt | apply Qle_ceiling].
  - intros Hlt.
    eapply Qle_lt_trans; [| apply Qceiling_lt].
    rewrite <- Zle_Qle. lia.
Qed.

Lemma forTrials_length (h : Host) (s : Scenario) (fuel : nat) :
  forall (i : Z) (st : LoopState),
    fuel = Z.to_nat (Qceiling (sc_n s) - i) ->
    length (ls_samples (forTrials fuel h s i st)) = (length (ls_samples st) + fuel)%nat.
Proof.
  induction fuel as [|fuel IH]; intros i st Hfuel; simpl; [lia |].
  destruct (Qc_ltb (num i) (sc_n s)) eqn:Hg.
  - rewrite IH by lia.
    destruct (trial_samples h s i st) as [x ->].
    rewrite length_app; simpl. lia.
  - apply not_true_iff_false in Hg. rewrite guard_ceiling in Hg. lia.
Qed.

(** The loop ends because its guard fails, not because the fuel runs
    out: more fuel than [tripCount] changes nothing. *)
Lemma forTrials_fuel (h : Host) (s : Scenario) (fuel : nat) :
  forall (extra : nat) (i : Z) (st : LoopState),
    fuel = Z.to_nat (Qceiling (sc_n s) - i) ->
    forTrials (fuel + extra) h s i st = forTrials fuel h s i st.
Proof.
  induction fuel as [|fuel IH]; intros extra i st Hfuel; simpl.
  - destruct extra as [|extra]; simpl; [done |].
    destruct (Qc_ltb (num i) (sc_n s)) eqn:Hg; [| done].
    apply guard_ceiling in Hg. lia.
  - destruct (Qc_ltb (num i) (sc_n s)); [| done].
    apply IH. lia.
Qed.



(** ** The latency of an accepted trial *)



(** ** Reproducibility of a run *)

Lemma findToken_view (h : Host) (ts : list Token) (i k : nat) :
  Forall (neverExpires h) ts ->
  fst (findToken h ts i k) = firstUnused (tok_used <$> ts) i.
Proof.
  intros Hall. revert i k.
  induction Hall as [|t ts Ht _ IH]; intros i k; simpl; [done |].
  destruct (tok_used t); [apply IH |].
  pose proof (Ht k) as Hk. apply Qc_ltb_lt in Hk. by rewrite Hk.
Qed.

Lemma markUsed_view (ts : list Token) (i : nat) :
  tok_used <$> alter markUsed i ts = <[i := true]> (tok_used <$> ts).
Proof.
  revert i. induction ts as [|t ts IH]; intros [|i]; try done.
  change (tok_used t :: (tok_used <$> alter markUsed i ts)
          = tok_used t :: <[i := true]> (tok_used <$> ts)).
  by rewrite IH.
Qed.

Lemma ensurePool_view (h : Host) (s : Scenario) (w : World) :
  shortSession h -> unexpiring h s w ->
  view s (ensurePool h s w) = view s w /\ unexpiring h s (ensurePool h s w).
Proof.
  intros Hshort Hun. unfold ensurePool.
  destruct (tokenPools w !! sc_id s) as [p|] eqn:E; [done |].
  unfold view, unexpiring, poolOf. rewrite E.
  unfold initTokenPool, log. cbn [tokenPools]. rewrite lookup_insert_eq.
  split; [reflexivity |].
  intros p Hp. apply (inj Some) in Hp. subst p. cbn [tokens].
  apply Forall_fmap, Forall_forall. intros i _ k. apply Hshort.
Qed.

Lemma riskCheck_view (h : Host) (s : Scenario) (a : Qc) (w : World) :
  shortSession h -> unexpiring h s w ->
  fst (riskCheck h s a w) = fst (checkView (view s w) a) /\
  view s (snd (riskCheck h s a w)) = snd (checkView (view s w) a) /\
  unexpiring h s (snd (riskCheck h s a w)).
Proof.
  intros Hshort Hun.
  destruct (ensurePool_view h s w Hshort Hun) as [Hv0 Hun0]. rewrite <- Hv0.
  destruct (ensurePool_poolOf h s w) as (p & Hp & _).
  pose proof (riskCheck_cases h s a w p Hp) as Hc. cbv zeta in Hc.
  pose proof (findToken_view h (tokens p) 0 (nowCalls (ensurePool h s w))
                (Hun0 p Hp)) as Hfind.
  set (w0 := ensurePool h s w) in *.
  assert (forall w' : World,
            tokenPools w' = tokenPools w0 ->
            view s w' = view s w0 /\ unexpiring h s w') as Hsame.
  { intros w' Heq. unfold view, unexpiring, poolOf in *. by rewrite Heq. }
  assert (view s w0 = viewOf p) as Hvp by (unfold view; by rewrite Hp).
  rewrite Hvp. unfold checkView, viewOf. rewrite <- Hfind.
  destruct (findToken h (tokens p) 0 (nowCalls w0)) as [[i|] k]; cbn [fst snd].
  2:{ destruct Hc as (-> & _ & Heq). destruct (Hsame _ Heq) as [-> ?].
      by rewrite Hvp. }
  destruct (Qc_ltb (limit p) (cumulative p + a)%Qc); cbn [fst snd].
  { destruct Hc as (-> & _ & Heq). destruct (Hsame _ Heq) as [-> ?].
    by rewrite Hvp. }
  destruct Hc as (-> & _ & Heq). split; [done |].
  unfold view, unexpiring, poolOf. rewrite Heq, lookup_insert_eq.
  unfold viewOf, consumed; cbn [tokens cumulative limit].
  split; [by rewrite markUsed_view |].
  intros p' Hp'. apply (inj Some) in Hp'. subst p'. cbn [tokens].
  apply Forall_alter; [by apply Hun0 | done].
Qed.

Lemma trial_sameRun (h1 h2 : Host) (s : Scenario) (i : Z) (st1 st2 : LoopState) :
  shortSession h1 -> shortSession h2 -> sameRun h1 h2 s st1 st2 ->
  sameRun h1 h2 s (trial h1 s i st1) (trial h2 s i st2).
Proof.
  intros Hshort1 Hshort2 (Hr & Hs & He & Ht & Hv & Hu1 & Hu2).
  destruct (riskCheck_view h1 s (num 1) (ls_world st1) Hshort1 Hu1) as (Hf1 & Hv1 & Hu1').
  destruct (riskCheck_view h2 s (num 1) (ls_world st2) Hshort2 Hu2) as (Hf2 & Hv2 & Hu2').
  rewrite Hv in Hf1, Hv1. rewrite <- Hf2 in Hf1. rewrite <- Hv2 in Hv1.
  unfold trial.
  destruct (riskCheck h1 s (num 1) (ls_world st1)) as [ok1 w1].
  destruct (riskCheck h2 s (num 1) (ls_world st2)) as [ok2 w2].
  cbn [fst snd] in *. subst ok2. rewrite Hr, Hs, He, Ht.
  destruct ok1; cbn [negb].
  - unfold sameRun. cbn [ls_rand ls_samples ls_errors ls_retries ls_world].
    repeat split; try done;
      destruct (no_err (networkTrial s (ls_rand st2)));
      destruct (no_drop (networkTrial s (ls_rand st2))); done.
  - by repeat split.
Qed.

Lemma forTrials_sameRun (h1 h2 : Host) (s : Scenario) (fuel : nat) :
  forall (i : Z) (st1 st2 : LoopState),
    shortSession h1 -> shortSession h2 -> sameRun h1 h2 s st1 st2 ->
    sameRun h1 h2 s (forTrials fuel h1 s i st1) (forTrials fuel h2 s i st2).
Proof.
  induction fuel as [|fuel IH]; intros i st1 st2 Hshort1 Hshort2 Hsame; simpl;
    [done |].
  destruct (Qc_ltb (num i) (sc_n s)); [| done].
  apply IH; [done.. |]. by apply trial_sameRun.
Qed.

(** C1, as stated, fails: the pool of a scenario id outlives the run.
    The first run of the example scenario (n = 1000) from the empty
    world uses up the 100 tokens; in the second run every trial is
    rejected, so its first sample is 0 where the first run measured a
    latency. *)
Lemma second_run_differs :
  inRange demoScenario /\
  ~ runTwiceSame demoHost demoScenario initialWorld.
Proof.
  split; [apply getScenario_inRange |].
  unfold runTwiceSame. intros [H _].
  apply (f_equal (fun l => this (nth 0 l 0%Qc))) in H.
  vm_compute in H. discriminate H.
Qed.

(** C1, amended. A run is a function of the scenario and of the state
    of the scenario's token pool: while no token expires, two runs of
    the same scenario that start with the pool in the same condition
    (the same tokens used, the same [cumulative] and [limit]; an absent
    pool counts as a fresh one) return identical samples, metrics,
    error and retry counts, whatever the clock and [Math.random()]
    return in either run. The draws of the seeded generator decide
    everything else; the clock and [Math.random()] only set expiry
    times. *)
Theorem simulateRun_reproducible (h1 h2 : Host) (s : Scenario) (w1 w2 : World) :
  shortSession h1 -> shortSession h2 ->
  unexpiring h1 s w1 -> unexpiring h2 s w2 ->
  view s w1 = view s w2 ->
  fst (simulateRun h1 s w1) = fst (simulateRun h2 s w2).
Proof.
  intros Hshort1 Hshort2 Hu1 Hu2 Hv. unfold simulateRun. cbn [fst].
  match goal with
  | |- context [forTrials ?f h1 s 0 ?a] =>
      match goal with
      | |- context [forTrials f h2 s 0 ?b] =>
          pose proof (forTrials_sameRun h1 h2 s f 0 a b Hshort1 Hshort2) as Hrun
      end
  end.
  destruct Hrun as (_ & Hs & He & Ht & _); [by repeat split |].
  by rewrite Hs, He, Ht.
Qed.

Lemma tickingHost_shortSession : shortSession tickingHost.
Proof.
  intros k k' j. unfold tickingHost; cbn [Date_now Math_random].
  replace (msPerDay (num 3 + Q2Qc (1 # 4))) with (num 280800000)
    by (apply Qc_is_canon; vm_compute; reflexivity).
  rewrite num_plus. apply num_lt. lia.
Qed.

Lemma demoHost_shortSession : shortSession demoHost.
Proof. intros k k' j. vm_compute. reflexivity. Qed.

(** The pool made under [demoHost] does not expire on [tickingHost]'s
    clock either. *)
Lemma pooledWorld_unexpiring : unexpiring tickingHost demoScenario pooledWorld.
Proof.
  intros p Hp.
  assert (poolOf demoScenario pooledWorld = Some demoPool) as E
    by (vm_compute; reflexivity).
  rewrite E in Hp. apply (inj Some) in Hp. subst p.
  apply Forall_fmap, Forall_forall. intros i _ k.
  unfold tickingHost; cbn [Date_now compose newToken tok_expiresAt].
  replace (msPerDay (num 3 + Q2Qc (1 # 2))) with (num 302400000)
    by (apply Qc_is_canon; vm_compute; reflexivity).
  rewrite num_plus. apply num_lt. lia.
Qed.

Lemma initialWorld_unexpiring (h : Host) : unexpiring h demoScenario initialWorld.
Proof.
  intros p Hp. unfold poolOf, initialWorld in Hp; cbn [tokenPools] in Hp.
  by rewrite lookup_empty in Hp.
Qed.

(** The example scenario run under [demoHost] from the empty world, and
    under [tickingHost] from a world where the pool already exists
    untouched: the results are equal. *)
Lemma simulateRun_reproducible_witness :
  shortSession demoHost /\
  shortSession tickingHost /\
  unexpiring demoHost demoScenario initialWorld /\
  unexpiring tickingHost demoScenario pooledWorld /\
  view demoScenario initialWorld = view demoScenario pooledWorld /\
  fst (simulateRun demoHost demoScenario initialWorld)
  = fst (simulateRun tickingHost demoScenario pooledWorld).
Proof.
  assert (view demoScenario initialWorld = view demoScenario pooledWorld) as Hv
    by (vm_compute; reflexivity).
  split; [exact demoHost_shortSession |].
  split; [exact tickingHost_shortSession |].
  split; [exact (initialWorld_unexpiring demoHost) |].
  split; [exact pooledWorld_unexpiring |].
  split; [exact Hv |].
  exact (simulateRun_reproducible demoHost tickingHost demoScenario initialWorld
           pooledWorld demoHost_shortSession tickingHost_shortSession
           (initialWorld_unexpiring demoHost) pooledWorld_unexpiring Hv).
Defined.

(** * Further properties of the code *)

(** ** Arithmetic on numbers, through [Q] *)

Lemma this_plus (x y : Qc) : (this (x + y)%Qc == this x + this y)%Q.
Proof. unfold Qcplus, Q2Qc; cbn [this]. apply Qred_correct. Qed.

Lemma this_mult (x y : Qc) : (this (x * y)%Qc == this x * this y)%Q.
Proof. unfold Qcmult, Q2Qc; cbn [this]. apply Qred_correct. Qed.

Lemma this_opp (x : Qc) : (this (- x)%Qc == - this x)%Q.
Proof. unfold Qcopp, Q2Qc; cbn [this]. apply Qred_correct. Qed.

Lemma this_minus (x y : Qc) : (this (x - y)%Qc == this x - this y)%Q.
Proof. unfold Qcminus. rewrite this_plus, this_opp. reflexivity. Qed.

Lemma this_num (z : Z) : this (num z) = inject_Z z.
Proof. reflexivity. Qed.

Lemma this_0 : this 0%Qc = 0%Q.
Proof. reflexivity. Qed.

Lemma this_1 : this 1%Qc = 1%Q.
Proof. reflexivity. Qed.

(** Orders on numbers as orders on [Q], where [lra] and [nra] work. *)
Ltac qc2q :=
  unfold Qcle, Qclt in *;
  repeat (rewrite ?this_plus, ?this_minus, ?this_mult, ?this_opp, ?this_num,
            ?this_0, ?this_1 in * ).

(** Closes an order or equality goal on numbers that follows linearly
    from the hypotheses. *)
Ltac qc_order :=
  first
    [ done
    | exfalso; qc2q; lra
    | apply Qcle_antisym; qc2q; lra
    | qc2q; lra ].

Lemma Qc_le_lt_dec (x y : Qc) : {(x <= y)%Qc} + {(y < x)%Qc}.
Proof. destruct (Qclt_le_dec y x); auto. Qed.

(** ** [clamp] *)

(** X1. [clamp(n, lo, hi)] with [lo <= hi] is [lo] below the range, [hi]
    above it and [n] inside, and it is monotone in [n]; with the bounds
    the wrong way round ([hi < lo]) it is [lo] whatever [n] is. *)
Theorem clamp_cases (n lo hi : Qc) :
  ((lo <= hi)%Qc ->
     ((n <= lo)%Qc -> clamp n lo hi = lo) /\
     ((hi <= n)%Qc -> clamp n lo hi = hi) /\
     ((lo <= n <= hi)%Qc -> clamp n lo hi = n) /\
     (forall m : Qc, (n <= m)%Qc -> (clamp n lo hi <= clamp m lo hi)%Qc)) /\
  ((hi < lo)%Qc -> clamp n lo hi = lo).
Proof.
  split.
  - intros Hlh. split; [| split; [| split]].
    + intros Hn. unfold clamp, Math_max, Math_min.
      case_ltb n hi; [case_ltb lo n | case_ltb lo hi]; qc_order.
    + intros Hn. unfold clamp, Math_max, Math_min.
      case_ltb n hi; [case_ltb lo n | case_ltb lo hi]; qc_order.
    + apply clamp_fixed.
    + intros m Hnm. unfold clamp.
      apply Math_max_lub; [apply Math_max_l |].
      eapply Qcle_trans; [| apply Math_max_r].
      apply Math_min_glb; [apply Math_min_l |].
      eapply Qcle_trans; [apply Math_min_r | done].
  - intros Hlt. unfold clamp, Math_max, Math_min.
    case_ltb n hi; [case_ltb lo n | case_ltb lo hi]; qc_order.
Qed.

(** ** The seeded generator *)

Lemma ToUint32_range (z : Z) : 0 <= ToUint32 z < two32.
Proof. unfold ToUint32, two32. apply Z.mod_pos_bound. lia. Qed.



Lemma js_ushr_0 (z : Z) : js_ushr z 0 = ToUint32 z.
Proof. unfold js_ushr. apply Z.shiftr_0_r. Qed.

Lemma unit_fraction (k : Z) :
  0 <= k < two32 ->
  (0 <= Q2Qc (k # 4294967296))%Qc /\ (Q2Qc (k # 4294967296) < 1)%Qc.
Proof.
  unfold two32. intros Hk. unfold Qcle, Qclt. rewrite this_0, this_1.
  unfold Q2Qc; cbn [this]. rewrite !Qred_correct.
  unfold Qle, Qlt; cbn [Qnum Qden]. lia.
Qed.

(** X2. Every call of the seeded generator returns a number in [0, 1):
    a 32-bit unsigned integer over [2^32]. *)
Theorem rand_next_unit_interval (t : Z) :
  (0 <= fst (rand_next t))%Qc /\ (fst (rand_next t) < 1)%Qc /\
  exists k : Z, 0 <= k < two32 /\ fst (rand_next t) = Q2Qc (k # 4294967296).
Proof.
  unfold rand_next. cbv zeta. cbn [fst]. rewrite js_ushr_0.
  match goal with |- context [ToUint32 ?a] => generalize (ToUint32_range a);
    generalize (ToUint32 a) end.
  intros k Hk. destruct (unit_fraction k Hk) as [H0 H1].
  split; [done |]. split; [done |]. by exists k.
Qed.




(** X4. For a seed within its declared range the generator starts from
    the integer part of the seed: nothing wraps, and a fractional part,
    which [getScenario] lets through, is ignored. *)
Theorem seededRand_in_range (seed : Qc) :
  (num 1 <= seed <= num 2147483647)%Qc ->
  seededRand seed = Qfloor seed /\ 1 <= seededRand seed <= 2147483647.
Proof.
  intros [Hlo Hhi]. unfold seededRand, truncate.
  assert (Qc_ltb seed 0%Qc = false) as ->.
  { apply Qc_ltb_ge. eapply Qcle_trans; [| exact Hlo].
    rewrite <- num_0. apply num_le. lia. }
  assert (1 <= Qfloor seed <= 2147483647) as Hf.
  { split.
    - rewrite <- (Qfloor_Z 1). by apply Qfloor_resp_le.
    - rewrite <- (Qfloor_Z 2147483647). by apply Qfloor_resp_le. }
  unfold ToUint32, two32. rewrite Z.mod_small by lia. by split.
Qed.

Lemma seededRand_in_range_witness :
  (num 1 <= Q2Qc (85 # 2) <= num 2147483647)%Qc /\
  seededRand (Q2Qc (85 # 2)) = 42.
Proof.
  assert (num 1 <= Q2Qc (85 # 2) <= num 2147483647)%Qc as H
    by (split; vm_compute; discriminate).
  split; [exact H |].
  exact (proj1 (seededRand_in_range (Q2Qc (85 # 2)) H)).
Defined.

(** ** The format of a scenario id *)

Lemma hexVal_hexDigit (d : Z) : 0 <= d < 16 -> hexVal (hexDigit d) = Some d.
Proof.
  intros Hd.
  assert (d = 0 \/ d = 1 \/ d = 2 \/ d = 3 \/ d = 4 \/ d = 5 \/ d = 6 \/ d = 7 \/
          d = 8 \/ d = 9 \/ d = 10 \/ d = 11 \/ d = 12 \/ d = 13 \/ d = 14 \/ d = 15)
    as Hcases by lia.
  repeat (destruct Hcases as [-> | Hcases]; [reflexivity |]).
  subst d. reflexivity.
Qed.

Lemma string_app_cons (c : ascii) (s1 s2 : string) :
  (String c s1 ++ s2)%string = String c (s1 ++ s2)%string.
Proof. reflexivity. Qed.

Lemma string_app_nil (s : string) : (EmptyString ++ s)%string = s.
Proof. reflexivity. Qed.

Lemma hexValue_app (s1 s2 : string) (acc : Z) :
  hexValue (s1 ++ s2)%string acc
  = match hexValue s1 acc with Some v => hexValue s2 v | None => None end.
Proof.
  revert acc. induction s1 as [|c s1 IH]; intros acc;
    rewrite ?string_app_cons, ?string_app_nil; cbn [hexValue]; [done |].
  destruct (hexVal c); [apply IH | done].
Qed.

Lemma string_app_assoc (s1 s2 s3 : string) :
  ((s1 ++ s2) ++ s3)%string = (s1 ++ (s2 ++ s3))%string.
Proof.
  induction s1 as [|c s1 IH]; rewrite ?string_app_cons, ?string_app_nil;
    [done | by rewrite IH].
Qed.

Lemma string_app_length (s1 s2 : string) :
  String.length (s1 ++ s2)%string = (String.length s1 + String.length s2)%nat.
Proof.
  induction s1 as [|c s1 IH]; rewrite ?string_app_cons, ?string_app_nil;
    cbn [String.length]; [done | by rewrite IH].
Qed.

(** [hexDigits] writes the digits of [z], between one and [fuel] of
    them, in front of [acc]. *)
Lemma hexDigits_spec (fuel : nat) :
  forall (z : Z) (acc : string),
    (0 < fuel)%nat -> 0 <= z < 16 ^ Z.of_nat fuel ->
    exists ds : string,
      hexDigits fuel z acc = (ds ++ acc)%string /\
      (1 <= String.length ds <= fuel)%nat /\
      forall a : Z, hexValue ds a = Some (a * 16 ^ Z.of_nat (String.length ds) + z).
Proof.
  induction fuel as [|fuel IH]; intros z acc Hfuel Hz; [lia |].
  cbn [hexDigits].
  assert (0 <= z mod 16 < 16) as Hd by (apply Z.mod_pos_bound; lia).
  destruct (z / 16 =? 0) eqn:Hq.
  - apply Z.eqb_eq in Hq.
    exists (String (hexDigit (z mod 16)) EmptyString).
    split; [done |]. split; [cbn [String.length]; lia |].
    intros a. cbn [hexValue String.length]. rewrite hexVal_hexDigit by done.
    f_equal. pose proof (Z.div_mod z 16 ltac:(lia)). change (16 ^ Z.of_nat 1) with 16. lia.
  - apply Z.eqb_neq in Hq.
    assert (0 < z / 16) as Hpos.
    { pose proof (Z.div_pos z 16 ltac:(lia) ltac:(lia)). lia. }
    assert (0 < fuel)%nat as Hf.
    { destruct fuel; [| lia]. change (16 ^ Z.of_nat 1) with 16 in Hz.
      rewrite Z.div_small in Hpos by lia. lia. }
    assert (z / 16 < 16 ^ Z.of_nat fuel) as Hlt.
    { apply Z.div_lt_upper_bound; [lia |].
      rewrite Nat2Z.inj_succ, Z.pow_succ_r in Hz by lia. lia. }
    destruct (IH (z / 16) (String (hexDigit (z mod 16)) acc) Hf ltac:(lia))
      as (ds & Heq & Hlen & Hval).
    exists (ds ++ String (hexDigit (z mod 16)) EmptyString)%string.
    split; [by rewrite Heq, string_app_assoc |].
    rewrite string_app_length. cbn [String.length].
    split; [lia |].
    intros a. rewrite hexValue_app, Hval. cbn [hexValue].
    rewrite hexVal_hexDigit by done. f_equal.
    replace (Z.of_nat (String.length ds + 1)) with (Z.succ (Z.of_nat (String.length ds)))
      by lia.
    rewrite Z.pow_succ_r by lia.
    pose proof (Z.div_mod z 16 ltac:(lia)). lia.
Qed.

Lemma hexValue_zeros (k : nat) (s : string) : hexValue (zeros k ++ s)%string 0 = hexValue s 0.
Proof.
  induction k as [|k IH]; cbn [zeros]; rewrite ?string_app_cons, ?string_app_nil;
    [done | exact IH].
Qed.

Lemma zeros_length (k : nat) : String.length (zeros k) = k.
Proof. induction k as [|k IH]; cbn [zeros String.length]; [done | by rewrite IH]. Qed.

(** X5. A scenario id is always [SCN-] followed by exactly eight
    upper-case hexadecimal digits, and those digits spell the unsigned
    32-bit value of the hash: equal ids mean equal 32-bit hashes. *)
Theorem hashId_format (input : string) :
  exists digits : string,
    hashId input = ("SCN-" ++ digits)%string /\
    String.length digits = 8%nat /\
    hexValue digits 0 = Some (ToUint32 (hashLoop input 2166136261)).
Proof.
  unfold hashId. cbv zeta. rewrite js_ushr_0.
  pose proof (ToUint32_range (hashLoop input 2166136261)) as Hr.
  set (v := ToUint32 (hashLoop input 2166136261)) in *.
  destruct (hexDigits_spec 8 v EmptyString ltac:(lia)) as (ds & Heq & Hlen & Hval).
  { unfold two32 in Hr. change (16 ^ Z.of_nat 8) with 4294967296. lia. }
  exists (padStart0 8 (toString16 v)). split; [done |].
  unfold toString16, padStart0. rewrite Heq.
  assert ((ds ++ EmptyString)%string = ds) as ->.
  { clear. induction ds as [|c ds IH]; rewrite ?string_app_cons, ?string_app_nil;
      [done | by rewrite IH]. }
  split.
  - rewrite string_app_length, zeros_length. lia.
  - rewrite hexValue_zeros, Hval. f_equal; lia.
Qed.

(** ** More on the statistics *)

Lemma percentile_cons (x : Qc) (arr : list Qc) (p : Qc) :
  percentile (x :: arr) p
  = nth (Z.to_nat (spec_rank (Z.of_nat (length (x :: arr))) p)) (sortAsc (x :: arr)) 0%Qc.
Proof. by apply percentile_nonempty. Qed.

Lemma sortAsc_lookup_rank (l : list Qc) (p : Qc) :
  l <> [] ->
  sortAsc l !! Z.to_nat (spec_rank (Z.of_nat (length l)) p) = Some (percentile l p).
Proof.
  intros Hne. rewrite percentile_nonempty by done.
  assert (0 < Z.of_nat (length l)) as Hlen by (destruct l; [done | simpl; lia]).
  pose proof (spec_rank_range _ p Hlen) as Hr.
  destruct (nth_lookup_or_length (sortAsc l)
              (Z.to_nat (spec_rank (Z.of_nat (length l)) p)) 0%Qc) as [-> | Hge];
    [done |].
  rewrite sortAsc_length in Hge. lia.
Qed.

Lemma percentile_elem (l : list Qc) (p : Qc) : l <> [] -> percentile l p ∈ l.
Proof.
  intros Hne. apply (elem_of_Permutation_proper _ _ _ (sortAsc_perm l)).
  eapply list_elem_of_lookup_2. by apply sortAsc_lookup_rank.
Qed.

(** X6. The percentile of a non-empty sequence is one of its samples:
    nothing is interpolated or invented. *)
Theorem percentile_is_a_sample (x : Qc) (arr : list Qc) (p : Qc) :
  percentile (x :: arr) p ∈ x :: arr.
Proof. by apply percentile_elem. Qed.




Lemma Qceiling_num (z : Z) : Qceiling (num z) = z.
Proof. unfold num, Qc_of_Z; cbn [this]. apply Qceiling_Z. Qed.

Lemma spec_rank_low (len : Z) (p : Qc) :
  0 < len -> (p <= 0)%Qc -> spec_rank len p = 0.
Proof.
  intros Hlen Hp. unfold spec_rank.
  assert (Qceiling (p / num 100 * num len)%Qc <= 0); [| lia].
  rewrite <- (Qceiling_num 0). apply Qceiling_resp_le.
  change ((p / num 100 * num len)%Qc <= num 0)%Qc.
  rewrite num_0, <- (Qcmult_0_l (num len)).
  apply Qcmult_le_mono_nonneg_r; [apply num_nonneg; lia |].
  rewrite <- (Qcmult_0_l (/ num 100)).
  apply Qcmult_le_mono_nonneg_r; [| done].
  apply Qclt_le_weak, Qcinv_pos. rewrite <- num_0. by apply num_lt.
Qed.

Lemma spec_rank_high (len : Z) (p : Qc) :
  0 < len -> (num 100 <= p)%Qc -> spec_rank len p = len - 1.
Proof.
  intros Hlen Hp. unfold spec_rank.
  assert (len <= Qceiling (p / num 100 * num len)%Qc); [| lia].
  rewrite <- (Qceiling_num len) at 1. apply Qceiling_resp_le.
  change (num len <= (p / num 100 * num len)%Qc)%Qc.
  rewrite <- (Qcmult_1_l (num len)) at 1.
  apply Qcmult_le_mono_nonneg_r; [apply num_nonneg; lia |].
  assert (1 = num 100 / num 100)%Qc as ->.
  { symmetry. apply Qcmult_inv_r. intros H. apply (f_equal this) in H. discriminate H. }
  apply Qcmult_le_mono_nonneg_r; [| done].
  apply Qclt_le_weak, Qcinv_pos. rewrite <- num_0. by apply num_lt.
Qed.

(** X8. At the ends of the scale the percentile is an extreme of the
    samples: for [p <= 0] it is their minimum and for [p >= 100], also
    beyond 100, their maximum. *)
Theorem percentile_extremes (x : Qc) (arr : list Qc) (p : Qc) :
  ((p <= 0)%Qc -> forall y : Qc, y ∈ x :: arr -> (percentile (x :: arr) p <= y)%Qc) /\
  ((num 100 <= p)%Qc -> forall y : Qc, y ∈ x :: arr -> (y <= percentile (x :: arr) p)%Qc).
Proof.
  assert (x :: arr <> []) as Hne by done.
  revert Hne. generalize (x :: arr). intros l Hne.
  assert (0 < Z.of_nat (length l)) as Hlen by (destruct l; [done | simpl; lia]).
  assert (forall y : Qc, y ∈ l ->
            exists j : nat, (j < length l)%nat /\ nth j (sortAsc l) 0%Qc = y) as Hidx.
  { intros y Hy. apply (elem_of_Permutation_proper _ _ _ (sortAsc_perm l)) in Hy.
    apply list_elem_of_lookup_1 in Hy as [j Hj]. exists j. split.
    - apply lookup_lt_Some in Hj. by rewrite sortAsc_length in Hj.
    - by apply nth_lookup_Some. }
  split; intros Hp y Hy; destruct (Hidx y Hy) as (j & Hj & <-);
    rewrite percentile_nonempty by done.
  - rewrite spec_rank_low by done.
    apply sorted_nth_le; [apply sortAsc_sorted |]. rewrite sortAsc_length.
    change (Z.to_nat 0) with 0%nat. lia.
  - rewrite spec_rank_high by done.
    apply sorted_nth_le; [apply sortAsc_sorted |]. rewrite sortAsc_length. lia.
Qed.





(** ** More on scenario normalisation *)

(** X10. A form filled with values that are all within their declared
    ranges is normalised to exactly those values: clamping changes
    nothing that is valid. *)
Theorem getScenario_keeps_valid_input (h : Host) (s : Scenario) :
  inRange s -> sameFields (getScenario h (asRaw s)) s.
Proof.
  intros (Hl & Hj & Ho & Hb & Hn & Hs).
  unfold sameFields, getScenario, asRaw, with_id, numberOr; cbn.
  by rewrite !clamp_fixed.
Qed.

Lemma getScenario_keeps_valid_input_witness :
  inRange demoScenario /\
  sameFields (getScenario demoHost (asRaw demoScenario)) demoScenario.
Proof.
  split; [apply getScenario_inRange |].
  exact (getScenario_keeps_valid_input demoHost demoScenario
           (getScenario_inRange demoHost demoRaw)).
Defined.

(** X11. A numeric box left empty gets its default, whatever the other
    boxes hold: latency, jitter and loss 0, n 1000, seed 42, and
    bandwidth 64, since its default 0 is raised to the lower bound of
    the range. *)
Theorem getScenario_defaults (h : Host) (raw : RawInput) :
  let s := getScenario h raw in
  (raw_latency raw = None -> sc_latency s = num 0) /\
  (raw_jitter raw = None -> sc_jitter s = num 0) /\
  (raw_loss raw = None -> sc_loss s = num 0) /\
  (raw_bw raw = None -> sc_bw s = num 64) /\
  (raw_n raw = None -> sc_n s = num 1000) /\
  (raw_seed raw = None -> sc_seed s = num 42).
Proof.
  cbv zeta. unfold getScenario, with_id; cbn [sc_latency sc_jitter sc_loss sc_bw sc_n sc_seed].
  repeat split; intros ->; cbn [numberOr].
  - apply clamp_fixed; split; apply num_le; lia.
  - apply clamp_fixed; split; apply num_le; lia.
  - apply clamp_fixed; split; apply num_le; lia.
  - apply Qc_is_canon; reflexivity.
  - apply clamp_fixed; split; apply num_le; lia.
  - apply clamp_fixed; split; apply num_le; lia.
Qed.

(** ** More on the risk engine *)







(** The clock counter only moves forward during a scan. *)
Lemma findToken_clock (h : Host) (ts : list Token) (i k : nat) :
  (k <= snd (findToken h ts i k))%nat.
Proof.
  revert i k. induction ts as [|t ts IH]; intros i k; simpl; [lia |].
  destruct (tok_used t); [apply IH |].
  destruct (Qc_ltb (num (Date_now h k)) (tok_expiresAt t)); simpl; [lia |].
  specialize (IH (S i) (S k)). lia.
Qed.

(** Every token a scan passes over was used, or expired at a reading
    of the clock. *)
Lemma findToken_skipped (h : Host) (ts : list Token) (i k j k' : nat) :
  findToken h ts i k = (Some j, k') ->
  forall (m : nat) (t : Token),
    (m < j - i)%nat -> ts !! m = Some t ->
    tok_used t = true \/
    exists r : nat, (tok_expiresAt t <= num (Date_now h r))%Qc.
Proof.
  revert i k. induction ts as [|t0 ts IH]; intros i k; simpl; [done |].
  destruct (tok_used t0) eqn:Hu.
  - intros Hf [|m] t Hm Ht.
    + injection Ht as <-. by left.
    + apply (IH _ _ Hf m t); [| done].
      apply findToken_sound in Hf as (_ & Hle & _). lia.
  - case_ltb (num (Date_now h k)) (tok_expiresAt t0).
    + intros [= <- <-] m t Hm. lia.
    + intros Hf [|m] t Hm Ht.
      * injection Ht as <-. right. by exists k.
      * apply (IH _ _ Hf m t); [| done].
        apply findToken_sound in Hf as (_ & Hle & _). lia.
Qed.

Lemma findToken_exists (h : Host) (ts : list Token) (i k : nat) :
  Exists (fun t => tok_used t = false /\ neverExpires h t) ts ->
  exists j k' : nat, findToken h ts i k = (Some j, k').
Proof.
  intros Hex. revert i k.
  induction Hex as [t ts [Hu Hne] | t ts _ IH]; intros i k; simpl.
  - rewrite Hu. pose proof (Hne k) as Hk. apply Qc_ltb_lt in Hk. rewrite Hk. eauto.
  - destruct (tok_used t); [apply IH |].
    destruct (Qc_ltb (num (Date_now h k)) (tok_expiresAt t)); [eauto | apply IH].
Qed.

(** The world [riskCheck] leaves, field by field. *)
Lemma riskCheck_world (h : Host) (s : Scenario) (a : Qc) (w : World) (p : Pool) :
  poolOf s (ensurePool h s w) = Some p ->
  let w0 := ensurePool h s w in
  let f := findToken h (tokens p) 0 (nowCalls w0) in
  let w' := snd (riskCheck h s a w) in
  (exists e : LogEntry, logs w' = logs w0 ++ [e]) /\
  nowCalls w' = snd f /\
  randomCalls w' = randomCalls w0 /\
  (fst (riskCheck h s a w) = true ->
     exists i : nat,
       fst f = Some i /\ Qc_ltb (limit p) (cumulative p + a)%Qc = false /\
       tokenPools w' = <[sc_id s := consumed p i a]> (tokenPools w0)) /\
  (fst (riskCheck h s a w) = false -> tokenPools w' = tokenPools w0).
Proof.
  intros Hp. cbv zeta. unfold poolOf in Hp. unfold riskCheck. rewrite Hp.
  destruct (findToken h (tokens p) 0 (nowCalls (ensurePool h s w))) as [[i|] k];
    cbn [fst snd].
  - destruct (Qc_ltb (limit p) (cumulative p + a)%Qc); cbn [fst snd log setPool setClock
      logs nowCalls randomCalls tokenPools]; repeat split; eauto; try done.
  - cbn [log setClock logs nowCalls randomCalls tokenPools]. repeat split; eauto; done.
Qed.

Lemma ensurePool_world (h : Host) (s : Scenario) (w : World) :
  let w0 := ensurePool h s w in
  (forall s' : Scenario, sc_id s' <> sc_id s -> poolOf s' w0 = poolOf s' w) /\
  logs w `prefix_of` logs w0 /\
  (nowCalls w <= nowCalls w0)%nat /\
  (randomCalls w <= randomCalls w0)%nat /\
  (is_Some (poolOf s w) -> w0 = w).
Proof.
  cbv zeta. unfold ensurePool, poolOf.
  destruct (tokenPools w !! sc_id s) as [p|] eqn:E.
  - repeat split; try done; lia.
  - unfold initTokenPool, log; cbn [tokenPools logs nowCalls randomCalls].
    split; [intros s' Hne; by apply lookup_insert_ne |].
    split; [by apply prefix_app_r |].
    split; [lia |]. split; [lia |]. by intros [? ?].
Qed.

(** What a risk check leaves alone. *)
Lemma riskCheck_touches (h : Host) (s : Scenario) (a : Qc) (w : World) :
  let w' := snd (riskCheck h s a w) in
  (forall s' : Scenario, sc_id s' <> sc_id s -> poolOf s' w' = poolOf s' w) /\
  logs w `prefix_of` logs w' /\
  (nowCalls w <= nowCalls w')%nat /\
  (randomCalls w <= randomCalls w')%nat /\
  (is_Some (poolOf s w) ->
     randomCalls w' = randomCalls w /\ length (logs w') = S (length (logs w))).
Proof.
  cbv zeta.
  destruct (ensurePool_poolOf h s w) as (p & Hp & _).
  destruct (ensurePool_world h s w) as (Hother & Hlogs & Hnow & Hrand & Hsame).
  destruct (riskCheck_world h s a w p Hp) as ([e He] & Hk & Hr & Hacc & Hrej).
  cbv zeta in *.
  pose proof (findToken_clock h (tokens p) 0 (nowCalls (ensurePool h s w))) as Hclock.
  split; [| split; [| split; [| split]]].
  - intros s' Hne. rewrite <- (Hother s' Hne). unfold poolOf.
    destruct (fst (riskCheck h s a w)) eqn:Hf.
    + destruct (Hacc eq_refl) as (i & _ & _ & ->). by apply lookup_insert_ne.
    + by rewrite (Hrej eq_refl).
  - rewrite He. etrans; [exact Hlogs | by apply prefix_app_r].
  - lia.
  - lia.
  - intros Hsome. rewrite (Hsame Hsome) in *. split; [done |].
    rewrite He, length_app. simpl. lia.
Qed.

(** X13. A risk check for one scenario leaves the pools of all other
    scenario ids as they were, only appends to the log, and never
    turns the counters of the clock and of [Math.random()] back; when
    the scenario's pool already exists it draws no random number and
    logs exactly one entry. *)
Theorem riskCheck_frame (h : Host) (s : Scenario) (a : Qc) (w : World) :
  let w' := snd (riskCheck h s a w) in
  (forall s' : Scenario, sc_id s' <> sc_id s -> poolOf s' w' = poolOf s' w) /\
  logs w `prefix_of` logs w' /\
  (nowCalls w <= nowCalls w')%nat /\
  (randomCalls w <= randomCalls w')%nat /\
  (is_Some (poolOf s w) ->
     randomCalls w' = randomCalls w /\ length (logs w') = S (length (logs w))).
Proof. apply riskCheck_touches. Qed.

(** X14. An accepted check has consumed a token that was unused and, at
    the last reading of the clock, unexpired; every token before it in
    the pool was used or had expired; and the amount fitted under the
    limit. The pool afterwards differs only in that token's flag and in
    [cumulative]. *)
Theorem riskCheck_accept_sound (h : Host) (s : Scenario) (a : Qc) (w : World) (p : Pool) :
  poolOf s (ensurePool h s w) = Some p ->
  fst (riskCheck h s a w) = true ->
  let w' := snd (riskCheck h s a w) in
  exists (i : nat) (t : Token),
    tokens p !! i = Some t /\
    tok_used t = false /\
    (num (Date_now h (pred (nowCalls w'))) < tok_expiresAt t)%Qc /\
    (forall (m : nat) (t' : Token),
       (m < i)%nat -> tokens p !! m = Some t' ->
       tok_used t' = true \/
       exists r : nat, (tok_expiresAt t' <= num (Date_now h r))%Qc) /\
    (cumulative p + a <= limit p)%Qc /\
    poolOf s w' = Some (consumed p i a).
Proof.
  intros Hp Hok. cbv zeta.
  destruct (riskCheck_world h s a w p Hp) as (_ & Hk & _ & Hacc & _).
  cbv zeta in *. destruct (Hacc Hok) as (i & Hi & Hlim & Hpools).
  destruct (findToken h (tokens p) 0 (nowCalls (ensurePool h s w))) as [o k] eqn:Ef.
  cbn [fst snd] in *. subst o.
  pose proof (findToken_sound _ _ _ _ _ _ Ef) as (t & _ & Ht & Hu & Hexp).
  rewrite Nat.sub_0_r in Ht.
  exists i, t. split; [done |]. split; [done |].
  split; [by rewrite Hk |].
  split.
  - intros m t' Hm. apply (findToken_skipped _ _ _ _ _ _ Ef). lia.
  - split; [by apply Qc_ltb_ge |].
    unfold poolOf. rewrite Hpools. apply lookup_insert_eq.
Qed.

Lemma riskCheck_accept_sound_witness :
  poolOf demoScenario (ensurePool demoHost demoScenario initialWorld) = Some demoPool /\
  fst (riskCheck demoHost demoScenario (num 1) initialWorld) = true /\
  exists (i : nat) (t : Token),
    tokens demoPool !! i = Some t /\ tok_used t = false /\
    poolOf demoScenario (snd (riskCheck demoHost demoScenario (num 1) initialWorld))
    = Some (consumed demoPool i (num 1)).
Proof.
  assert (poolOf demoScenario (ensurePool demoHost demoScenario initialWorld)
          = Some demoPool) as Hp by (vm_compute; reflexivity).
  assert (fst (riskCheck demoHost demoScenario (num 1) initialWorld) = true) as Hok
    by (vm_compute; reflexivity).
  split; [exact Hp |]. split; [exact Hok |].
  destruct (riskCheck_accept_sound demoHost demoScenario (num 1) initialWorld demoPool
              Hp Hok) as (i & t & Ht & Hu & _ & _ & _ & Hpool).
  exists i, t. by repeat split.
Defined.

(** X15. A check is accepted whenever the pool holds a token that is
    unused and does not expire and the amount fits under the limit:
    there is no other ground for rejection. *)
Theorem riskCheck_accept_complete
    (h : Host) (s : Scenario) (a : Qc) (w : World) (p : Pool) :
  poolOf s (ensurePool h s w) = Some p ->
  Exists (fun t => tok_used t = false /\ neverExpires h t) (tokens p) ->
  (cumulative p + a <= limit p)%Qc ->
  fst (riskCheck h s a w) = true.
Proof.
  intros Hp Hex Hfit.
  pose proof (riskCheck_cases h s a w p Hp) as Hc. cbv zeta in Hc.
  destruct (findToken_exists h (tokens p) 0 (nowCalls (ensurePool h s w)) Hex)
    as (j & k' & Ef).
  rewrite Ef in Hc. apply Qc_ltb_ge in Hfit. rewrite Hfit in Hc. tauto.
Qed.

Lemma demoPool_usable :
  Exists (fun t => tok_used t = false /\ neverExpires demoHost t) (tokens demoPool).
Proof.
  unfold demoPool; cbn [tokens]. change (seq 0 100) with (0%nat :: seq 1 99).
  rewrite fmap_cons. apply Exists_cons_hd.
  split; [reflexivity |]. intros k. vm_compute. reflexivity.
Qed.

Lemma riskCheck_accept_complete_witness :
  poolOf demoScenario (ensurePool demoHost demoScenario initialWorld) = Some demoPool /\
  (cumulative demoPool + num 100 <= limit demoPool)%Qc /\
  fst (riskCheck demoHost demoScenario (num 100) initialWorld) = true.
Proof.
  assert (poolOf demoScenario (ensurePool demoHost demoScenario initialWorld)
          = Some demoPool) as Hp by (vm_compute; reflexivity).
  assert (cumulative demoPool + num 100 <= limit demoPool)%Qc as Hfit
    by (vm_compute; discriminate).
  split; [exact Hp |]. split; [exact Hfit |].
  exact (riskCheck_accept_complete demoHost demoScenario (num 100) initialWorld demoPool
           Hp demoPool_usable Hfit).
Defined.

(** ** More on a run *)

Lemma trial_countsOk (h : Host) (s : Scenario) (i : Z) (st : LoopState) :
  countsOk st -> countsOk (trial h s i st).
Proof.
  intros (Hs & He & Hr). unfold trial, countsOk.
  destruct (riskCheck h s (num 1) (ls_world st)) as [[|] w];
    cbn [negb ls_samples ls_errors ls_retries];
    rewrite length_app; cbn [length].
  - split; [| destruct (no_err _), (no_drop _); lia].
    apply Forall_app. split; [done |]. constructor; [| constructor].
    rewrite <- num_0. apply Math_max_l.
  - split; [| lia].
    apply Forall_app. split; [done |]. constructor; [| constructor].
    rewrite num_0. apply Qcle_refl.
Qed.

Lemma forTrials_countsOk (h : Host) (s : Scenario) (fuel : nat) :
  forall (i : Z) (st : LoopState),
    countsOk st -> countsOk (forTrials fuel h s i st).
Proof.
  induction fuel as [|fuel IH]; intros i st Hok; simpl; [done |].
  destruct (Qc_ltb (num i) (sc_n s)); [| done].
  by apply IH, trial_countsOk.
Qed.

(** The state in which the loop of [simulateRun] starts and the one
    in which it ends. *)
Lemma simulateRun_loop (h : Host) (s : Scenario) (w : World) :
  exists w0 : World,
    tokenPools w0 = tokenPools w /\
    (exists e1 e2 : LogEntry, logs w0 = logs w ++ [e1; e2]) /\
    let st0 :=
      {| ls_rand := seededRand (sc_seed s); ls_samples := []; ls_errors := 0;
         ls_retries := 0; ls_world := w0 |} in
    let st := forTrials (tripCount (sc_n s)) h s 0 st0 in
    samples (fst (simulateRun h s w)) = ls_samples st /\
    errors (fst (simulateRun h s w)) = ls_errors st /\
    retries (fst (simulateRun h s w)) = ls_retries st /\
    metrics (fst (simulateRun h s w))
    = computeMetrics s (ls_samples st) (ls_errors st) (ls_retries st) /\
    tokenPools (snd (simulateRun h s w)) = tokenPools (ls_world st) /\
    exists e3 e4 : LogEntry,
      logs (snd (simulateRun h s w)) = logs (ls_world st) ++ [e3; e4].
Proof.
  unfold simulateRun. eexists. split; [| split].
  3:{ cbv zeta. cbn [fst snd samples errors retries metrics].
      repeat split; try reflexivity.
      unfold log at 1 2. cbn [logs]. rewrite <- app_assoc. eauto. }
  - reflexivity.
  - unfold log. cbn [logs]. rewrite <- app_assoc. eauto.
Qed.

(** X16. In the result of a run no sample is negative, and the error
    and retry counts lie between 0 and the number of samples: a trial
    adds at most one to each. *)
Theorem simulateRun_counts (h : Host) (s : Scenario) (w : World) :
  let r := fst (simulateRun h s w) in
  Forall (fun x => (0 <= x)%Qc) (samples r) /\
  0 <= errors r <= Z.of_nat (length (samples r)) /\
  0 <= retries r <= Z.of_nat (length (samples r)).
Proof.
  cbv zeta.
  destruct (simulateRun_loop h s w) as (w0 & _ & _ & Hloop). cbv zeta in Hloop.
  destruct Hloop as (-> & -> & -> & _).
  apply forTrials_countsOk. unfold countsOk; cbn. split; [constructor | lia].
Qed.

Lemma spec_sum_nonneg (l : list Qc) :
  Forall (fun x => (0 <= x)%Qc) l -> (0 <= spec_sum l)%Qc.
Proof.
  induction 1 as [|x l Hx _ IH]; [apply Qcle_refl |].
  change (spec_sum (x :: l)) with (x + spec_sum l)%Qc.
  by apply Qcplus_nonneg_nonneg.
Qed.

Lemma mean_nonneg (l : list Qc) :
  Forall (fun x => (0 <= x)%Qc) l -> (0 <= mean l)%Qc.
Proof.
  intros Hall. unfold mean. destruct l as [|x l]; [apply Qcle_refl |].
  change (length (x :: l) =? 0)%nat with false. cbv iota zeta.
  rewrite fold_left_Qcplus, Qcplus_0_l.
  apply Qcmult_nonneg_nonneg; [by apply spec_sum_nonneg |].
  apply Qclt_le_weak, Qcinv_pos. rewrite <- num_0. apply num_lt. simpl. lia.
Qed.

Lemma percentile_nonneg (l : list Qc) (p : Qc) :
  Forall (fun x => (0 <= x)%Qc) l -> (0 <= percentile l p)%Qc.
Proof.
  intros Hall. destruct (decide (l = [])) as [-> | Hne]; [apply Qcle_refl |].
  rewrite Forall_forall in Hall. by apply Hall, percentile_elem.
Qed.

Lemma rate_unit (e k : Z) :
  0 <= e <= k -> 1 <= k -> (0 <= num e / num k)%Qc /\ (num e / num k <= 1)%Qc.
Proof.
  intros He Hk.
  assert (0 < num k)%Qc as Hpos by (rewrite <- num_0; apply num_lt; lia).
  assert (0 <= / num k)%Qc as Hinv by (by apply Qclt_le_weak, Qcinv_pos).
  split.
  - apply Qcmult_nonneg_nonneg; [apply num_nonneg; lia | done].
  - assert (1 = num k / num k)%Qc as ->.
    { symmetry. apply Qcmult_inv_r. intros E. rewrite E in Hpos.
      by apply Qclt_not_eq in Hpos. }
    apply Qcmult_le_mono_nonneg_r; [done | apply num_le; lia].
Qed.

(** X17. The metrics of a run are never negative, and when [scenario.n]
    is a positive integer the error rate and the retry rate lie in
    [0, 1]. *)
Theorem simulateRun_metrics_bounds (h : Host) (s : Scenario) (w : World) :
  let m := metrics (fst (simulateRun h s w)) in
  (0 <= avg_ms m)%Qc /\ (0 <= p50_ms m)%Qc /\ (0 <= p95_ms m)%Qc /\ (0 <= p99_ms m)%Qc /\
  forall k : Z, 1 <= k -> sc_n s = num k ->
    (0 <= error_rate m <= 1)%Qc /\ (0 <= retry_rate m <= 1)%Qc.
Proof.
  cbv zeta.
  destruct (simulateRun_loop h s w) as (w0 & _ & _ & Hloop). cbv zeta in Hloop.
  destruct Hloop as (_ & _ & _ & -> & _).
  match goal with |- context [forTrials ?f h s 0 ?st0] =>
    pose proof (forTrials_countsOk h s f 0 st0) as Hok;
    pose proof (forTrials_length h s f 0 st0) as Hlen;
    set (st := forTrials f h s 0 st0) in *
  end.
  destruct Hok as (Hs & He & Hr); [unfold countsOk; cbn; split; [constructor | lia] |].
  unfold computeMetrics;
    cbn [avg_ms p50_ms p95_ms p99_ms error_rate retry_rate].
  split; [by apply mean_nonneg |].
  split; [by apply percentile_nonneg |].
  split; [by apply percentile_nonneg |].
  split; [by apply percentile_nonneg |].
  intros k Hk Hn.
  assert (Z.of_nat (length (ls_samples st)) = k) as Hlen'.
  { rewrite Hlen by (unfold tripCount; f_equal; lia).
    cbn [ls_samples length]. unfold tripCount. rewrite Hn, Qceiling_num. lia. }
  rewrite Hn. split; apply rate_unit; lia.
Qed.

(** When [scenario.n] is not an integer the bound can fail: with 10.5
    in the box and a pool already used up, all 11 trials are rejected
    and the error rate is 22/21. *)
Example error_rate_above_one :
  let s := getScenario demoHost fractionalRaw in
  let w := snd (riskChecks demoHost s (replicate 100 (num 1)) initialWorld) in
  this (error_rate (metrics (fst (simulateRun demoHost s w)))) = (22 # 21)%Q.
Proof. vm_compute. reflexivity. Qed.

(** *** How many trials a pool lets through *)

Lemma countUsed_le (ts : list Token) : (countUsed ts <= length ts)%nat.
Proof.
  induction ts as [|t ts IH]; simpl; [lia |]. destruct (tok_used t); lia.
Qed.

Lemma unusedCount_nonneg (s : Scenario) (w : World) : 0 <= unusedCount s w.
Proof.
  unfold unusedCount. destruct (poolOf s w) as [p|]; [| lia].
  pose proof (countUsed_le (tokens p)). lia.
Qed.

Lemma unusedCount_pools (s : Scenario) (w w' : World) :
  tokenPools w' = tokenPools w -> unusedCount s w' = unusedCount s w.
Proof. intros Heq. unfold unusedCount, poolOf. by rewrite Heq. Qed.

Lemma ensurePool_unusedCount (h : Host) (s : Scenario) (w : World) :
  unusedCount s (ensurePool h s w) = unusedCount s w.
Proof.
  unfold ensurePool, unusedCount, poolOf.
  destruct (tokenPools w !! sc_id s) as [p|] eqn:E; [by rewrite E |].
  unfold initTokenPool, log. cbn [tokenPools]. rewrite lookup_insert_eq.
  cbn [tokens]. rewrite length_fmap, length_seq, countUsed_unused; [lia |].
  apply Forall_fmap, Forall_forall. done.
Qed.

(** An accepted check takes one token from the unused ones, a rejected
    check none. *)
Lemma riskCheck_unusedCount (h : Host) (s : Scenario) (a : Qc) (w : World) :
  unusedCount s (snd (riskCheck h s a w))
  = unusedCount s w - (if fst (riskCheck h s a w) then 1 else 0).
Proof.
  rewrite <- (ensurePool_unusedCount h s w).
  destruct (ensurePool_poolOf h s w) as (p & Hp & _).
  destruct (riskCheck_world h s a w p Hp) as (_ & _ & _ & Hacc & Hrej).
  cbv zeta in *.
  destruct (fst (riskCheck h s a w)) eqn:Hf.
  - destruct (Hacc eq_refl) as (i & Hi & _ & Hpools).
    destruct (findToken h (tokens p) 0 (nowCalls (ensurePool h s w))) as [o k] eqn:Ef.
    cbn [fst] in Hi. subst o.
    apply findToken_sound in Ef as (t & _ & Ht & Hu & _).
    rewrite Nat.sub_0_r in Ht.
    unfold unusedCount, poolOf in *. rewrite Hpools, lookup_insert_eq, Hp.
    cbn [consumed tokens]. rewrite length_alter, (countUsed_alter _ _ t Ht Hu). lia.
  - rewrite (unusedCount_pools s _ _ (Hrej eq_refl)). lia.
Qed.

Lemma trial_cleanTrials (h : Host) (s : Scenario) (i : Z) (st : LoopState) :
  cleanTrials (trial h s i st) + unusedCount s (ls_world (trial h s i st))
  <= cleanTrials st + unusedCount s (ls_world st).
Proof.
  pose proof (riskCheck_unusedCount h s (num 1) (ls_world st)) as Hu.
  unfold trial, cleanTrials.
  destruct (riskCheck h s (num 1) (ls_world st)) as [[|] w]; cbn [fst snd] in Hu;
    cbn [negb ls_samples ls_errors ls_world]; rewrite length_app; cbn [length].
  - assert (forall w1 : World, tokenPools w1 = tokenPools w ->
              unusedCount s w1 = unusedCount s w) as Hlog
      by (intros w1 Heq; by apply unusedCount_pools).
    destruct (no_err _); [| destruct (no_drop _)];
      rewrite ?Hlog by reflexivity; lia.
  - lia.
Qed.

Lemma forTrials_cleanTrials (h : Host) (s : Scenario) (fuel : nat) :
  forall (i : Z) (st : LoopState),
    cleanTrials (forTrials fuel h s i st)
    + unusedCount s (ls_world (forTrials fuel h s i st))
    <= cleanTrials st + unusedCount s (ls_world st).
Proof.
  induction fuel as [|fuel IH]; intros i st; simpl; [lia |].
  destruct (Qc_ltb (num i) (sc_n s)); [| lia].
  etrans; [apply IH | apply trial_cleanTrials].
Qed.

(** X18. A run lets through at most as many trials as the scenario has
    unused tokens when it starts (100 when its pool does not exist
    yet): all other trials are counted as errors. With [n] trials the
    error count is therefore at least [n] minus that number, whatever
    the network parameters and the seed are. *)
Theorem simulateRun_token_bound (h : Host) (s : Scenario) (w : World) :
  let r := fst (simulateRun h s w) in
  Z.of_nat (length (samples r)) - errors r <= unusedCount s w /\
  unusedCount s (snd (simulateRun h s w))
  <= unusedCount s w - (Z.of_nat (length (samples r)) - errors r) /\
  forall k : Z, 0 <= k -> sc_n s = num k -> k - unusedCount s w <= errors r.
Proof.
  cbv zeta.
  destruct (simulateRun_loop h s w) as (w0 & Hw0 & _ & Hloop). cbv zeta in Hloop.
  destruct Hloop as (Hs & He & _ & _ & Hpools & _). rewrite Hs, He.
  match goal with |- context [forTrials ?f h s 0 ?st0] =>
    pose proof (forTrials_cleanTrials h s f 0 st0) as Hclean;
    pose proof (forTrials_length h s f 0 st0) as Hlen;
    set (st := forTrials f h s 0 st0) in *
  end.
  unfold cleanTrials in Hclean. cbn [ls_samples ls_errors ls_world length] in Hclean.
  rewrite (unusedCount_pools s w w0 Hw0) in Hclean.
  rewrite (unusedCount_pools s _ _ Hpools).
  pose proof (unusedCount_nonneg s (ls_world st)) as Hnn.
  split; [lia |]. split; [lia |].
  intros k Hk Hn.
  assert (Z.of_nat (length (ls_samples st)) = k) as Hlen'.
  { rewrite Hlen by (unfold tripCount; f_equal; lia).
    cbn [ls_samples length]. unfold tripCount. rewrite Hn, Qceiling_num. lia. }
  lia.
Qed.

(** *** What a run leaves alone *)

Lemma trial_touches (h : Host) (s : Scenario) (i : Z) (st : LoopState) :
  (forall s' : Scenario,
     sc_id s' <> sc_id s ->
     poolOf s' (ls_world (trial h s i st)) = poolOf s' (ls_world st)) /\
  logs (ls_world st) `prefix_of` logs (ls_world (trial h s i st)).
Proof.
  destruct (riskCheck_touches h s (num 1) (ls_world st)) as (Hother & Hlogs & _).
  cbv zeta in *. unfold trial.
  destruct (riskCheck h s (num 1) (ls_world st)) as [[|] w]; cbn [fst snd] in *;
    cbn [negb ls_world]; [| done].
  destruct (no_err _); [| destruct (no_drop _)];
    unfold log, poolOf in *; cbn [tokenPools logs];
    (split; [done |]); try done; etrans; try exact Hlogs; by apply prefix_app_r.
Qed.

Lemma forTrials_touches (h : Host) (s : Scenario) (fuel : nat) :
  forall (i : Z) (st : LoopState),
    (forall s' : Scenario,
       sc_id s' <> sc_id s ->
       poolOf s' (ls_world (forTrials fuel h s i st)) = poolOf s' (ls_world st)) /\
    logs (ls_world st) `prefix_of` logs (ls_world (forTrials fuel h s i st)).
Proof.
  induction fuel as [|fuel IH]; intros i st; simpl; [done |].
  destruct (Qc_ltb (num i) (sc_n s)); [| done].
  destruct (IH (i + 1) (trial h s i st)) as [Hp Hl].
  destruct (trial_touches h s i st) as [Hp' Hl'].
  split.
  - intros s' Hne. by rewrite Hp, Hp'.
  - by etrans.
Qed.

(** X19. A run of one scenario leaves the token pools of all other
    scenario ids as they were, and only appends to the log: what was
    logged before the run is still there, in order, at the front. *)
Theorem simulateRun_frame (h : Host) (s : Scenario) (w : World) :
  let w' := snd (simulateRun h s w) in
  (forall s' : Scenario, sc_id s' <> sc_id s -> poolOf s' w' = poolOf s' w) /\
  logs w `prefix_of` logs w'.
Proof.
  cbv zeta.
  destruct (simulateRun_loop h s w) as (w0 & Hw0 & (e1 & e2 & Hl0) & Hloop).
  cbv zeta in Hloop.
  destruct Hloop as (_ & _ & _ & _ & Hpools & (e3 & e4 & Hlogs)).
  match goal with _ : context [forTrials ?f h s 0 ?st0] |- _ =>
    destruct (forTrials_touches h s f 0 st0) as [Hp Hl]
  end.
  cbn [ls_world] in Hp, Hl. split.
  - intros s' Hne. unfold poolOf in *. rewrite Hpools, (Hp s' Hne). by rewrite Hw0.
  - rewrite Hlogs. apply prefix_app_r.
    etrans; [| exact Hl]. rewrite Hl0. by apply prefix_app_r.
Qed.

(** ** The run history *)

Lemma sliceLast_length {A : Type} (k : nat) (l : list A) :
  length (sliceLast k l) = Nat.min k (length l).
Proof. unfold sliceLast. rewrite length_drop. lia. Qed.

Lemma sliceLast_short {A : Type} (k : nat) (l : list A) :
  (length l <= k)%nat -> sliceLast k l = l.
Proof.
  intros Hle. unfold sliceLast.
  replace (length l - k)%nat with 0%nat by lia. reflexivity.
Qed.

Lemma sliceLast_app {A : Type} (k : nat) (a b : list A) :
  sliceLast k (sliceLast k a ++ b) = sliceLast k (a ++ b).
Proof.
  destruct (decide (length a <= k)%nat) as [Hle | Hgt].
  - by rewrite (sliceLast_short k a).
  - unfold sliceLast. rewrite !length_app, length_drop.
    replace (length a - (length a - k) + length b - k)%nat with (length b) by lia.
    replace (length a + length b - k)%nat with (length a - k + length b)%nat by lia.
    rewrite <- drop_drop. f_equal. rewrite drop_app_le by lia. reflexivity.
Qed.

(** X20. The history kept by the Run button is always the most recent
    runs, at most 20 of them: after any number of runs it is the last
    20 entries of the old history followed by the new runs, the newest
    run is its last entry, and what [saveRuns] writes is the whole of
    it. *)
Theorem pushRun_keeps_last_20 {A : Type} (runs new : list A) :
  fold_left (fun hist run => pushRun run hist) new (sliceLast 20 runs)
  = sliceLast 20 (runs ++ new) /\
  (forall run : A,
     length (pushRun run runs) = Nat.min 20 (S (length runs)) /\
     last (pushRun run runs) = Some run /\
     savedRuns (pushRun run runs) = pushRun run runs).
Proof.
  split.
  - revert runs. induction new as [|r new IH]; intros runs; cbn [fold_left].
    + by rewrite app_nil_r.
    + unfold pushRun at 2. rewrite sliceLast_app.
      rewrite (IH (runs ++ [r])). by rewrite <- app_assoc.
  - intros run. split; [| split].
    + unfold pushRun. rewrite sliceLast_length, length_app. cbn [length]. lia.
    + unfold pushRun, sliceLast. rewrite length_app; cbn [length].
      rewrite drop_app_le by lia. apply last_snoc.
    + unfold savedRuns, pushRun. apply sliceLast_short.
      rewrite sliceLast_length. lia.
Qed.

(** Twenty-two runs into an empty history: the first two are gone. *)
Example pushRun_example :
  fold_left (fun hist run => pushRun run hist) (seq 1 22) [] = seq 3 20.
Proof. reflexivity. Qed.

(** ** The latency chart *)

(** The points the loop adds, counted in steps. *)
Lemma chartLoop_count (step : nat) (samples : list Qc) (fuel : nat) :
  forall (i : nat) (pts : list Qc),
    (1 <= step)%nat ->
    exists n : nat,
      length (chartLoop fuel step i samples pts) = (length pts + n)%nat /\
      (n * step <= (length samples - i) + (step - 1))%nat.
Proof.
  induction fuel as [|fuel IH]; intros i pts Hstep; cbn [chartLoop].
  - exists 0%nat. lia.
  - destruct (i <? length samples)%nat eqn:Hi.
    + apply Nat.ltb_lt in Hi.
      destruct (IH (i + step)%nat (pts ++ [nth i samples 0%Qc]) Hstep) as (n & Hlen & Hn).
      exists (S n). rewrite Hlen, length_app. cbn [length]. split; [lia |].
      destruct (decide (step <= length samples - i)%nat); [lia |].
      assert (n = 0)%nat by nia. subst n. lia.
    + exists 0%nat. lia.
Qed.

Lemma chartLoop_step_1 (samples : list Qc) (fuel : nat) :
  forall (i : nat) (pts : list Qc),
    (length samples - i <= fuel)%nat ->
    chartLoop fuel 1 i samples pts = pts ++ drop i samples.
Proof.
  induction fuel as [|fuel IH]; intros i pts Hfuel; cbn [chartLoop].
  - rewrite drop_ge by lia. by rewrite app_nil_r.
  - destruct (i <? length samples)%nat eqn:Hi.
    + apply Nat.ltb_lt in Hi. rewrite IH by lia.
      destruct (lookup_lt_is_Some_2 samples i Hi) as [x Hx].
      rewrite (nth_lookup_Some _ _ _ _ Hx), (drop_S _ _ _ Hx), <- app_assoc.
      by rewrite Nat.add_1_r.
    + apply Nat.ltb_ge in Hi. rewrite drop_ge by lia. by rewrite app_nil_r.
Qed.

Lemma chartLoop_elem (step : nat) (samples : list Qc) (fuel : nat) :
  forall (i : nat) (pts : list Qc),
    Forall (fun v => v ∈ samples) pts ->
    Forall (fun v => v ∈ samples) (chartLoop fuel step i samples pts).
Proof.
  induction fuel as [|fuel IH]; intros i pts Hpts; cbn [chartLoop]; [done |].
  destruct (i <? length samples)%nat eqn:Hi; [| done].
  apply Nat.ltb_lt in Hi. apply IH, Forall_app. split; [done |].
  constructor; [| constructor].
  destruct (lookup_lt_is_Some_2 samples i Hi) as [x Hx].
  rewrite (nth_lookup_Some _ _ _ _ Hx). by eapply list_elem_of_lookup_2.
Qed.

(** X21. The chart never plots more than 1599 points, every plotted
    point is one of the samples, and a run of fewer than 1600 samples
    is plotted in full, sample by sample. *)
Theorem chartPoints_bounded (samples : list Qc) :
  (length (chartPoints samples) <= 1599)%nat /\
  Forall (fun v => v ∈ samples) (chartPoints samples) /\
  ((length samples < 1600)%nat -> chartPoints samples = samples).
Proof.
  unfold chartPoints, chartStep. split; [| split].
  - destruct (chartLoop_count (Nat.max 1 (length samples / 800)) samples (length samples)
                0 [] ltac:(lia)) as (n & -> & Hn).
    cbn [length]. rewrite Nat.sub_0_r in Hn.
    pose proof (Nat.div_mod_eq (length samples) 800) as Hdm.
    pose proof (Nat.mod_upper_bound (length samples) 800 ltac:(lia)) as Hmod.
    destruct (decide (length samples / 800 = 0)%nat) as [Hq | Hq].
    + rewrite Hq in *. change (Nat.max 1 0) with 1%nat in Hn. lia.
    + replace (Nat.max 1 (length samples / 800)) with (length samples / 800)%nat in Hn
        by lia.
      nia.
  - by apply chartLoop_elem.
  - intros Hlen.
    assert (Nat.max 1 (length samples / 800) = 1)%nat as ->.
    { pose proof (Nat.Div0.div_lt_upper_bound (length samples) 800 2 ltac:(lia)).
      lia. }
    rewrite chartLoop_step_1 by lia. reflexivity.
Qed.

(** A run of 2000 samples is plotted every second sample: 1000 points. *)
Example chartPoints_example : length (chartPoints (replicate 2000 0%Qc)) = 1000%nat.
Proof. vm_compute. reflexivity. Qed.

Lemma fold_Math_max_ge (l : list Qc) (a : Qc) :
  (a <= fold_left Math_max l a)%Qc /\
  Forall (fun v => (v <= fold_left Math_max l a)%Qc) l.
Proof.
  revert a. induction l as [|x l IH]; intros a; cbn [fold_left].
  - split; [apply Qcle_refl | constructor].
  - destruct (IH (Math_max a x)) as [H1 H2]. split; [| constructor; [| done]].
    + eapply Qcle_trans; [apply Math_max_l | exact H1].
    + eapply Qcle_trans; [apply Math_max_r | exact H1].
Qed.

Lemma fold_Math_min_le (l : list Qc) (a : Qc) :
  (fold_left Math_min l a <= a)%Qc /\
  Forall (fun v => (fold_left Math_min l a <= v)%Qc) l.
Proof.
  revert a. induction l as [|x l IH]; intros a; cbn [fold_left].
  - split; [apply Qcle_refl | constructor].
  - destruct (IH (Math_min a x)) as [H1 H2]. split; [| constructor; [| done]].
    + eapply Qcle_trans; [exact H1 | apply Math_min_l].
    + eapply Qcle_trans; [exact H1 | apply Math_min_r].
Qed.

Lemma minOf_maxOf (l : list Qc) (v : Qc) :
  v ∈ l -> (minOf l <= v)%Qc /\ (v <= maxOf l)%Qc.
Proof.
  destruct l as [|x l]; [by intros ?%elem_of_nil |].
  unfold minOf, maxOf.
  destruct (fold_Math_max_ge l x) as [Hx1 Hl1].
  destruct (fold_Math_min_le l x) as [Hx2 Hl2].
  rewrite Forall_forall in Hl1, Hl2.
  intros [-> | Hv]%elem_of_cons; [done |]. split; auto.
Qed.

(** X22. Every sample is drawn inside the plot area: on a canvas at
    least 60 pixels high its ordinate lies between the top margin (30)
    and the bottom margin ([h - 30]), the largest sample on the top
    line when the samples span at least one millisecond, and the
    divisor [range] is never below 1. *)
Theorem chartY_inside (h : Qc) (samples : list Qc) (v : Qc) :
  (num 60 <= h)%Qc -> v ∈ samples ->
  (num 1 <= chartRange samples)%Qc /\
  (num 30 <= chartY h samples v <= h - num 30)%Qc /\
  ((num 1 <= maxOf samples - minOf samples)%Qc ->
     chartY h samples (maxOf samples) = num 30).
Proof.
  intros Hh Hv. destruct (minOf_maxOf samples v Hv) as [Hmin Hmax].
  assert (num 1 <= chartRange samples)%Qc as Hr1 by apply Math_max_l.
  assert (maxOf samples - minOf samples <= chartRange samples)%Qc as Hr2
    by apply Math_max_r.
  assert (0 < chartRange samples)%Qc as Hpos.
  { eapply Qclt_le_trans; [| exact Hr1]. rewrite <- num_0. by apply num_lt. }
  assert (chartRange samples <> 0%Qc) as Hne
    by (intros E; rewrite E in Hpos; by apply Qclt_not_eq in Hpos).
  split; [done |]. split.
  - unfold chartY. cbv zeta.
    assert (0 <= (v - minOf samples) / chartRange samples)%Qc as Hu0.
    { apply Qcmult_nonneg_nonneg; [| by apply Qclt_le_weak, Qcinv_pos].
      clear -Hmin. qc_order. }
    assert ((v - minOf samples) / chartRange samples <= 1)%Qc as Hu1.
    { rewrite <- (Qcmult_inv_r (chartRange samples)) by done.
      apply Qcmult_le_mono_nonneg_r; [by apply Qclt_le_weak, Qcinv_pos |].
      clear -Hmax Hr2. qc_order. }
    revert Hu0 Hu1. generalize ((v - minOf samples) / chartRange samples)%Qc.
    intros u Hu0 Hu1. clear -Hh Hu0 Hu1.
    split; qc2q; unfold inject_Z in *; nra.
  - intros Hspan. unfold chartY. cbv zeta.
    assert (chartRange samples = maxOf samples - minOf samples)%Qc as ->.
    { unfold chartRange, Math_max.
      case_ltb (num 1) (maxOf samples - minOf samples)%Qc; [done |].
      by apply Qcle_antisym. }
    assert (maxOf samples - minOf samples <> 0)%Qc as Hne'.
    { intros E. rewrite E in Hspan. clear -Hspan. revert Hspan.
      rewrite <- num_0. apply Qclt_not_le, num_lt. lia. }
    unfold Qcdiv. rewrite Qcmult_inv_r by done.
    replace (num 1) with 1%Qc by (symmetry; apply Z2Qc_inj_1). ring.
Qed.

Lemma chartY_inside_witness :
  (num 60 <= num 240)%Qc /\ num 3 ∈ [num 3; num 1; num 2] /\
  (num 30 <= chartY (num 240) [num 3; num 1; num 2] (num 3) <= num 240 - num 30)%Qc.
Proof.
  assert (num 60 <= num 240)%Qc as Hh by (apply num_le; lia).
  assert (num 3 ∈ [num 3; num 1; num 2]) as Hv by apply list_elem_of_here.
  split; [exact Hh |]. split; [exact Hv |].
  exact (proj1 (proj2 (chartY_inside (num 240) [num 3; num 1; num 2] (num 3) Hh Hv))).
Defined.

(** ** Tokens are only ever marked used *)

Lemma markUsed_same (ts : list Token) (i : nat) :
  tok_id <$> alter markUsed i ts = tok_id <$> ts /\
  tok_expiresAt <$> alter markUsed i ts = tok_expiresAt <$> ts.
Proof.
  split; apply list_eq; intros j; rewrite !list_lookup_fmap, list_lookup_alter;
    case_decide; subst; try done; by destruct (ts !! _).
Qed.

Lemma riskCheck_sameTokens (h : Host) (s : Scenario) (a : Qc) (w : World) (p : Pool) :
  poolOf s w = Some p ->
  exists p' : Pool, poolOf s (snd (riskCheck h s a w)) = Some p' /\ sameTokens p p'.
Proof.
  intros Hp. pose proof (ensurePool_present h s w p Hp) as Hw0.
  assert (poolOf s (ensurePool h s w) = Some p) as Hp0 by (by rewrite Hw0).
  destruct (riskCheck_world h s a w p Hp0) as (_ & _ & _ & Hacc & Hrej).
  cbv zeta in *. rewrite Hw0 in *.
  destruct (fst (riskCheck h s a w)) eqn:Hf.
  - destruct (Hacc eq_refl) as (i & _ & _ & Hpools).
    exists (consumed p i a). unfold poolOf. rewrite Hpools, lookup_insert_eq.
    split; [done |]. unfold sameTokens, consumed; cbn [tokens limit threshold].
    destruct (markUsed_same (tokens p) i) as [-> ->]. done.
  - exists p. unfold poolOf in *. rewrite (Hrej eq_refl). by repeat split.
Qed.

(** X23. Once a pool exists, no sequence of risk checks replaces it or
    alters a token's id or expiry, the limit or the threshold: the only
    things a check changes in a pool are [used] flags and [cumulative].
    In particular an expired or used-up pool is never renewed. *)
Theorem riskChecks_sameTokens (h : Host) (s : Scenario) (amounts : list Qc) :
  forall (w : World) (p : Pool),
    poolOf s w = Some p ->
    exists p' : Pool,
      poolOf s (snd (riskChecks h s amounts w)) = Some p' /\ sameTokens p p'.
Proof.
  induction amounts as [|a amounts IH]; intros w p Hp; cbn [riskChecks].
  - exists p. by repeat split.
  - destruct (riskCheck_sameTokens h s a w p Hp) as (p1 & Hp1 & H1 & H2 & H3 & H4).
    destruct (riskCheck h s a w) as [ok w1]. cbn [snd] in Hp1.
    destruct (IH w1 p1 Hp1) as (p2 & Hp2 & H1' & H2' & H3' & H4').
    destruct (riskChecks h s amounts w1) as [oks w2]. cbn [snd] in *.
    exists p2. split; [done |]. unfold sameTokens.
    by rewrite H1', H2', H3', H4'.
Qed.

Lemma riskChecks_sameTokens_witness :
  poolOf demoScenario pooledWorld = Some demoPool /\
  exists p' : Pool,
    poolOf demoScenario
      (snd (riskChecks demoHost demoScenario [num 1; num 200; num 1] pooledWorld))
    = Some p' /\ sameTokens demoPool p'.
Proof.
  assert (poolOf demoScenario pooledWorld = Some demoPool) as Hp
    by (vm_compute; reflexivity).
  split; [exact Hp |].
  exact (riskChecks_sameTokens demoHost demoScenario [num 1; num 200; num 1]
           pooledWorld demoPool Hp).
Defined.

(** ** Zero samples *)

Lemma rand_next_range (g : Z) : (0 <= fst (rand_next g))%Qc /\ (fst (rand_next g) < 1)%Qc.
Proof.
  unfold rand_next. cbv zeta. cbn [fst]. rewrite js_ushr_0.
  apply unit_fraction, ToUint32_range.
Qed.

Lemma Math_abs_nonneg (x : Qc) : (0 <= Math_abs x)%Qc.
Proof. unfold Math_abs. case_ltb x 0%Qc; qc_order. Qed.

Lemma payloadKbits_pos (s : Scenario) : (0 < payloadKbits s)%Qc.
Proof.
  unfold payloadKbits. destruct (String.eqb _ _); rewrite <- num_0; by apply num_lt.
Qed.

Lemma bwMs_pos (s : Scenario) : (0 < sc_bw s)%Qc -> (0 < bwMs s)%Qc.
Proof.
  intros Hbw. unfold bwMs.
  repeat apply Qcmult_pos_pos; try (rewrite <- num_0; by apply num_lt).
  - apply payloadKbits_pos.
  - by apply Qcinv_pos.
Qed.

Lemma firstAttempt_pos (s : Scenario) (r : Qc) :
  (0 <= r)%Qc -> (0 <= sc_jitter s)%Qc -> (0 < sc_bw s)%Qc ->
  (sc_jitter s <= baseProcessing s + sc_latency s)%Qc ->
  (0 < firstAttempt s r)%Qc.
Proof.
  intros Hr Hj Hbw Hjit. pose proof (bwMs_pos s Hbw) as Hb.
  unfold firstAttempt, jitterOffset. cbv zeta.
  revert Hb Hjit. generalize (bwMs s) (baseProcessing s) (sc_latency s) (sc_jitter s) Hj.
  clear -Hr. intros b base lat jit Hj Hb Hjit.
  qc2q. unfold inject_Z in *. nra.
Qed.

Lemma networkTrial_ge (s : Scenario) (g : Z) :
  (0 <= sc_latency s)%Qc ->
  (firstAttempt s (draw 1 g) <= no_t (networkTrial s g))%Qc.
Proof.
  intros Hlat. unfold networkTrial. cbn [draw].
  destruct (rand_next g) as [r1 g1]. cbn [fst snd].
  destruct (rand_next g1) as [r2 g2]. cbn [fst snd].
  set (t0 := firstAttempt s r2).
  assert (forall (t : Qc) (g' : Z),
            (t0 <= t)%Qc ->
            (t0 <= no_t (let '(r5, g5) := rand_next g' in
                         let '(t', g6) :=
                           if Qc_ltb r5 (stress s * Q2Qc (35 # 100))%Qc
                           then let '(r6, g7) := rand_next g5 in
                                ((t + (num 35 + r6 * num 90))%Qc, g7)
                           else (t, g5) in
                         {| no_t := t'; no_err := false; no_drop := false;
                            no_rand := g6 |}))%Qc) as Hstress.
  { intros t g' Ht. destruct (rand_next g') as [r5 g5].
    destruct (Qc_ltb r5 (stress s * Q2Qc (35 # 100))%Qc); [| done].
    pose proof (rand_next_range g5) as [H6 _].
    destruct (rand_next g5) as [r6 g7]. cbn [fst no_t] in *.
    clear -Ht H6. qc2q. unfold inject_Z in *. nra. }
  destruct (Qc_ltb r1 (sc_loss s / num 100)%Qc).
  - destruct (rand_next g2) as [r3 g3]. destruct (rand_next g3) as [r4 g4].
    pose proof (Math_abs_nonneg ((r4 * num 2 - num 1) * sc_jitter s)%Qc) as Habs.
    revert Habs. generalize (Math_abs ((r4 * num 2 - num 1) * sc_jitter s)%Qc).
    intros ab Habs.
    assert (t0 <= t0 + (sc_latency s + ab + num 40))%Qc as Ht.
    { clear -Hlat Habs. qc2q. unfold inject_Z in *. lra. }
    specialize (Hstress _ g4 Ht).
    destruct (rand_next g4) as [r5 g5].
    destruct (Qc_ltb r5 (stress s * Q2Qc (35 # 100))%Qc);
      [destruct (rand_next g5) as [r6 g7] |]; exact Hstress.
  - destruct (rand_next g2) as [r3 g3].
    specialize (Hstress t0 g3 (Qcle_refl _)).
    destruct (rand_next g3) as [r5 g5].
    destruct (Qc_ltb r5 (stress s * Q2Qc (35 # 100))%Qc);
      [destruct (rand_next g5) as [r6 g7] |]; exact Hstress.
Qed.

(** X24. When the jitter does not exceed the base processing time plus
    the latency (and latency and jitter are not negative, bandwidth is
    positive), a trial's sample is 0 exactly when the risk check
    rejected it: an accepted trial always measures a positive latency,
    so the sentinel 0 can be told apart. *)
Theorem zero_sample_means_rejected (h : Host) (s : Scenario) (i : Z) (st : LoopState) :
  (0 <= sc_latency s)%Qc -> (0 <= sc_jitter s)%Qc -> (0 < sc_bw s)%Qc ->
  (sc_jitter s <= baseProcessing s + sc_latency s)%Qc ->
  exists x : Qc,
    ls_samples (trial h s i st) = ls_samples st ++ [x] /\
    (fst (riskCheck h s (num 1) (ls_world st)) = false -> x = num 0) /\
    (fst (riskCheck h s (num 1) (ls_world st)) = true -> (0 < x)%Qc).
Proof.
  intros Hlat Hjit Hbw Hsmall. unfold trial.
  destruct (riskCheck h s (num 1) (ls_world st)) as [[|] w]; cbn [negb fst ls_samples].
  - eexists. split; [reflexivity |]. split; [done |]. intros _.
    pose proof (networkTrial_ge s (ls_rand st) Hlat) as Hge.
    pose proof (rand_next_range (snd (rand_next (ls_rand st)))) as [Hr _].
    pose proof (firstAttempt_pos s (draw 1 (ls_rand st)) Hr Hjit Hbw Hsmall) as Hpos.
    eapply Qclt_le_trans; [| apply Math_max_r].
    by eapply Qclt_le_trans.
  - eexists. split; [reflexivity |]. by split.
Qed.

Lemma zero_sample_means_rejected_witness :
  (0 <= sc_latency demoScenario)%Qc /\ (0 <= sc_jitter demoScenario)%Qc /\
  (0 < sc_bw demoScenario)%Qc /\
  (sc_jitter demoScenario <= baseProcessing demoScenario + sc_latency demoScenario)%Qc /\
  exists x : Qc,
    ls_samples (trial demoHost demoScenario 0
                  {| ls_rand := 42; ls_samples := []; ls_errors := 0; ls_retries := 0;
                     ls_world := initialWorld |}) = [] ++ [x] /\
    (0 < x)%Qc.
Proof.
  assert (0 <= sc_latency demoScenario)%Qc as H1 by (vm_compute; discriminate).
  assert (0 <= sc_jitter demoScenario)%Qc as H2 by (vm_compute; discriminate).
  assert (0 < sc_bw demoScenario)%Qc as H3 by (vm_compute; reflexivity).
  assert (sc_jitter demoScenario <= baseProcessing demoScenario + sc_latency demoScenario)%Qc
    as H4 by (vm_compute; discriminate).
  split; [exact H1 |]. split; [exact H2 |]. split; [exact H3 |]. split; [exact H4 |].
  destruct (zero_sample_means_rejected demoHost demoScenario 0
              {| ls_rand := 42; ls_samples := []; ls_errors := 0; ls_retries := 0;
                 ls_world := initialWorld |} H1 H2 H3 H4) as (x & Hx & _ & Hpos).
  exists x. split; [exact Hx |].
  apply Hpos. vm_compute. reflexivity.
Defined.

(** With a jitter above the base time plus the latency the clamp at 0
    can act on an accepted trial: latency 0, jitter 2000, seed 7. *)
Example accepted_sample_zero :
  let s :=
    getScenario demoHost
      {| raw_netType := "private_apn"; raw_latency := Some (num 0);
         raw_jitter := Some (num 2000); raw_loss := Some (num 0);
         raw_bw := Some (num 1000000); raw_mix := "tap_to_pay";
         raw_n := Some (num 10); raw_seed := Some (num 7) |} in
  let r := fst (simulateRun demoHost s initialWorld) in
  errors r = 0 /\ existsb (fun x => Qc_ltb x (Q2Qc (1 # 1000000))) (samples r) = true.
Proof. vm_compute. repeat split. Qed.
